(** * download-mingw-rpm: package lookup and dependency resolution

    A shallow embedding of the resolution core of [download-mingw-rpm.py]
    ([_findPackage], [_checkPackageRequirements], [packagesDownload]) and the
    properties its specification states about it.

    Python values are modelled as follows.
    - [str] is [string], for the strings whose characters are below 256: a
      member of [ascii] is one character (a code point), not a byte of an
      encoding.  [int] is [Z].
    - a package [dict] is the record [Package]; the module-level list
      [_packages] is a [list Package] passed explicitly.
    - a [set] of strings is a [gset string].  The order in which CPython
      walks a set depends on the string hashes, which change from one
      interpreter process to the next; the order is therefore an explicit
      parameter, the class [SetOrder].
    - the [logging] calls append to a list of [diag] events.
    - the file system is seen through the one test the resolution makes of
      it: the state of the package cache is the set of the file names [f]
      for which [os.path.exists(os.path.join(_packageCacheDirectory, f))]
      holds.  For the name of a directory entry this is the presence of that
      entry in the cache directory; for a cache directory that exists the
      set also holds the empty name, [.] and [..].
    - the transport is outside the specification: the embedding describes
      the runs in which every [urlretrieve] returns, and after it the file
      it wrote exists.

    The functions are embedded twice.  The first embedding works on values
    and carries the log and the cache; the lookup and resolution properties
    are proved on it.  The second, the module [Store], works on references
    into a store of objects and shows which objects a call changes; it is
    proved to return what the first computes. *)

From stdpp Require Import gmap strings list sorting.
From Stdlib Require Import ZArith Ascii String.

Open Scope string_scope.
Open Scope list_scope.
Open Scope Z_scope.

(** ** Strings *)

(** [s.endswith(suffix)] *)
Definition endswith (s suffix : string) : bool :=
  let n := String.length s in
  let m := String.length suffix in
  (m <=? n)%nat && String.eqb (substring (n - m) m s) suffix.

(** [s.replace(old, new)] for a non-empty [old]: every occurrence of [old],
    found from left to right without overlap, is replaced.  [skip] counts the
    characters of the occurrence that are still to be dropped. *)
Fixpoint replace_from (old new : string) (skip : nat) (s : string) : string :=
  match s with
  | EmptyString => EmptyString
  | String c s' =>
      match skip with
      | S k => replace_from old new k s'
      | O =>
          if String.prefix old s
          then new +:+ replace_from old new (String.length old - 1) s'
          else String c (replace_from old new 0 s')
      end
  end.

Definition str_replace (s old new : string) : string := replace_from old new 0 s.

(** ** [fnmatch.fnmatchcase]

    The pattern language of the [fnmatch] module: [*] matches everything,
    [?] one character, [[seq]] one character of [seq], [[!seq]] one character
    not in [seq]; a [[] that is never closed stands for itself.  Matching is
    case-sensitive and has to consume the whole name.

    [fnmatch.translate], here as CPython 3.11 has it, turns the pattern into
    a regular expression that the [re] module compiles.  The embedding follows it item by item: a
    [glob_item] is what one piece of that expression matches, and
    [glob_match] is the match of the whole expression, [(?s:...)\Z], from
    the start of the name. *)

Inductive glob_item :=
  | GStar
  | GAny
  | GClass (negated : bool) (ranges : list (ascii * ascii))
  | GLit (c : ascii).

(** The index [j] of the [']'] closing a bracket expression, counted from
    the character after the ['[']: a leading ['!'] and a [']'] right after
    it are part of the expression. *)
Fixpoint find_rbracket (l : list ascii) (j : nat) : option nat :=
  match l with
  | [] => None
  | c :: l' => if Ascii.eqb c "]"%char then Some j else find_rbracket l' (S j)
  end.

Definition bracket_end (l : list ascii) : option nat :=
  let j1 := match l with c :: _ => if Ascii.eqb c "!"%char then 1%nat else 0%nat | [] => 0%nat end in
  let j2 := match drop j1 l with c :: _ => if Ascii.eqb c "]"%char then S j1 else j1 | [] => j1 end in
  find_rbracket (drop j2 l) j2.

(** The [while True] loop that cuts [stuff] into [chunks] at the hyphens
    that make ranges: [pat.find('-', k, j)] looks no further left than [k],
    which is two characters after the hyphen found before ([k = k+3]), and
    one or two characters after the start of [stuff].  [skip] is the number
    of characters up to [k], [chunk] what has been read since the last
    cut.  The last member is [pat[i:j]], which may be empty. *)
Fixpoint split_chunks (skip : nat) (chunk : list ascii) (stuff : list ascii)
    : list (list ascii) :=
  match stuff with
  | [] => [chunk]
  | c :: stuff' =>
      match skip with
      | S skip' => split_chunks skip' (chunk ++ [c]) stuff'
      | O =>
          if Ascii.eqb c "-"%char
          then chunk :: split_chunks 2 [] stuff'
          else split_chunks 0 (chunk ++ [c]) stuff'
      end
  end.

(** [if chunk: chunks.append(chunk) else: chunks[-1] += '-'], for [chunks]
    followed by [chunk]. *)
Fixpoint close_chunks (chunks : list (list ascii)) : list (list ascii) :=
  match chunks with
  | [] => []
  | [chunk] => [chunk]
  | [previous; chunk] =>
      match chunk with
      | [] => [previous ++ ["-"%char]]
      | _ :: _ => [previous; chunk]
      end
  | first :: chunks' => first :: close_chunks chunks'
  end.

(** The loop that removes the empty ranges, from the last pair of chunks to
    the first: [chunks[k-1][-1] > chunks[k][0]] compares code points. *)
Fixpoint remove_empty_ranges (chunks : list (list ascii)) : list (list ascii) :=
  match chunks with
  | [] => []
  | previous :: chunks' =>
      match remove_empty_ranges chunks' with
      | [] => [previous]
      | chunk :: rest =>
          match last previous, chunk with
          | Some hi, lo :: chunk' =>
              if (N_of_ascii lo <? N_of_ascii hi)%N
              then (removelast previous ++ chunk') :: rest
              else previous :: chunk :: rest
          | _, _ => previous :: chunk :: rest
          end
      end
  end.

(** What is written between the brackets of the regular expression: a
    character that stands for itself, escaped where [re] needs it, or the
    hyphen that joins two chunks. *)
Inductive class_token :=
  | CLit (c : ascii)
  | CHyphen.

#[global] Instance class_token_eq_dec : EqDecision class_token.
Proof. solve_decision. Defined.

(** ['-'.join(...)] *)
Fixpoint join_chunks (chunks : list (list ascii)) : list class_token :=
  match chunks with
  | [] => []
  | [chunk] => CLit <$> chunk
  | chunk :: chunks' => (CLit <$> chunk) ++ CHyphen :: join_chunks chunks'
  end.

(** The final value of [stuff], before a leading ['!'] is looked at. *)
Definition class_tokens (stuff : list ascii) : list class_token :=
  if existsb (Ascii.eqb "-"%char) stuff then
    let k := match stuff with
             | c :: _ => if Ascii.eqb c "!"%char then 2%nat else 1%nat
             | [] => 1%nat
             end in
    join_chunks (remove_empty_ranges (close_chunks (split_chunks k [] stuff)))
  else CLit <$> stuff.

Definition token_char (t : class_token) : ascii :=
  match t with CLit c => c | CHyphen => "-"%char end.

(** The members of a character set as [re] reads it: a character, a hyphen
    and a character are a range; a hyphen that ends the set, and any other
    character, stand for themselves. *)
Fixpoint class_ranges (tokens : list class_token) : list (ascii * ascii) :=
  match tokens with
  | [] => []
  | this :: rest =>
      match rest with
      | [CHyphen] => [(token_char this, token_char this); ("-"%char, "-"%char)]
      | CHyphen :: that :: rest' =>
          (token_char this, token_char that) :: class_ranges rest'
      | _ => (token_char this, token_char this) :: class_ranges rest
      end
  end.

Definition in_range (c : ascii) (r : ascii * ascii) : bool :=
  (N_of_ascii r.1 <=? N_of_ascii c)%N && (N_of_ascii c <=? N_of_ascii r.2)%N.

(** The item for a bracket expression with [stuff] between the brackets:
    [(?!)] for an empty set, [.] for the negation of one. *)
Definition class_item (stuff : list ascii) : glob_item :=
  match class_tokens stuff with
  | [] => GClass false []
  | first :: tokens =>
      if decide (first = CLit "!"%char) then
        match tokens with
        | [] => GAny
        | _ :: _ => GClass true (class_ranges tokens)
        end
      else GClass false (class_ranges (first :: tokens))
  end.

(** [fnmatch.translate]; [fuel] bounds the number of pattern items, one per
    character at most. *)
Fixpoint translate (fuel : nat) (pat : list ascii) : list glob_item :=
  match fuel, pat with
  | O, _ | _, [] => []
  | S fuel', c :: pat' =>
      if Ascii.eqb c "*"%char then GStar :: translate fuel' pat'
      else if Ascii.eqb c "?"%char then GAny :: translate fuel' pat'
      else if Ascii.eqb c "["%char then
        match bracket_end pat' with
        | None => GLit c :: translate fuel' pat'
        | Some j => class_item (take j pat') :: translate fuel' (drop (S j) pat')
        end
      else GLit c :: translate fuel' pat'
  end.

Fixpoint glob_match (items : list glob_item) (s : list ascii) : bool :=
  match items with
  | [] => match s with [] => true | _ => false end
  | GStar :: items' =>
      (fix star (t : list ascii) : bool :=
         glob_match items' t || match t with [] => false | _ :: t' => star t' end) s
  | GAny :: items' =>
      match s with [] => false | _ :: s' => glob_match items' s' end
  | GClass negated ranges :: items' =>
      match s with
      | [] => false
      | c :: s' => xorb negated (existsb (in_range c) ranges) && glob_match items' s'
      end
  | GLit c :: items' =>
      match s with [] => false | d :: s' => Ascii.eqb c d && glob_match items' s' end
  end.

(** [fnmatchcase(name, pat)] *)
Definition fnmatchcase (name pat : string) : bool :=
  let p := list_ascii_of_string pat in
  glob_match (translate (List.length p) p) (list_ascii_of_string name).

(** ** Data model *)

(** One entry of [_packages], as [OpenRepository] builds it. *)
Record Package := {
  name : string;
  buildtime : Z;
  url : string;
  filename : string;
  provides : gset string;
  requires : gset string
}.

#[global] Instance Package_eq_dec : EqDecision Package.
Proof. solve_decision. Defined.

(** The order in which the interpreter walks a set.  It is a permutation of
    the members and nothing else is known about it.  [set.pop()] on a set
    that has only been added to removes the first member of that order. *)
Class SetOrder := {
  set_iter : gset string → list string;
  set_iter_perm : ∀ X, set_iter X ≡ₚ elements X
}.

Definition set_pop `{!SetOrder} (X : gset string) : option string :=
  head (set_iter X).

(** The messages handed to [logging.warning] and [logging.error]. *)
Inductive diag :=
  | MultiplePackages (packageName : string)
  | Candidate (fname : string)
  | RequiresProvidedBy (pname requirement : string) (providers : list string)
  | RequiresNotProvided (pname requirement : string)
  | PackageNotFound (packName : string)
  | Downloading (fname : string).

#[global] Instance diag_eq_dec : EqDecision diag.
Proof. solve_decision. Defined.

(** [sorted(l, key=key, reverse=True)]: descending by key, and stable, so
    members with equal keys keep the order they have in [l]. *)
Fixpoint insert_desc {A} (key : A → Z) (x : A) (l : list A) : list A :=
  match l with
  | [] => [x]
  | y :: l' => if key y <=? key x then x :: l else y :: insert_desc key x l'
  end.

Definition sorted_reverse {A} (key : A → Z) (l : list A) : list A :=
  foldr (insert_desc key) [] l.

(** [l.pop()]: the last member and the list without it. *)
Fixpoint list_pop {A} (l : list A) : option (list A * A) :=
  match l with
  | [] => None
  | x :: l' =>
      match list_pop l' with
      | None => Some ([], x)
      | Some (l'', y) => Some (x :: l'', y)
      end
  end.

(** The variables of the [while] loop of [packagesDownload], the log and the
    state of the package cache: the file names [f] for which
    [os.path.exists(os.path.join(_packageCacheDirectory, f))] holds. *)
Record loop_state := {
  packageNames : list string;
  allPackageNames : gset string;
  packageFilenames : list string;
  log : list diag;
  cache : gset string
}.

(** ** The resolver *)

Section Resolver.
Context `{!SetOrder}.
Variable _packages : list Package.

(** [packageName in [p['name'], p['filename']]] *)
Definition name_or_filename (packageName : string) (p : Package) : Prop :=
  packageName = name p ∨ packageName = filename p.

#[global] Instance name_or_filename_dec packageName p :
  Decision (name_or_filename packageName p).
Proof. unfold name_or_filename. apply _. Defined.

(** The list [packages] of [_findPackage]. *)
Definition findByNameOrFilename (packageName : string) : list Package :=
  sorted_reverse buildtime (filter (name_or_filename packageName) _packages).

Definition _findPackage (packageName : string) : option Package * list diag :=
  let packages := findByNameOrFilename packageName in
  match packages with
  | [] => (None, [])
  | p :: _ =>
      (Some p,
       if (1 <? List.length packages)%nat
       then MultiplePackages packageName :: (Candidate ∘ filename <$> packages)
       else [])
  end.

(** [{p['name'] for p in _packages if requirement in p['provides']}] *)
Definition providersOf (requirement : string) : gset string :=
  list_to_set (name <$> filter (λ p, requirement ∈ provides p) _packages).

(** One turn of the [for] loop of [_checkPackageRequirements].  The test
    [if providers] and [providers.pop()] are one match: the set is empty
    exactly when its walk is. *)
Definition check_requirement (package : Package) (packageNames : gset string)
    (acc : gset string * list diag) (requirement : string) : gset string * list diag :=
  let providers := providersOf requirement in
  if decide (providers ∩ packageNames = ∅) then
    match set_pop providers with
    | Some provider =>
        (acc.1 ∪ {[provider]},
         acc.2 ++ [RequiresProvidedBy (name package) requirement (set_iter providers)])
    | None => (acc.1, acc.2 ++ [RequiresNotProvided (name package) requirement])
    end
  else acc.

Definition _checkPackageRequirements (package : Package) (packageNames : gset string)
    : gset string * list diag :=
  foldl (check_requirement package packageNames) (∅, []) (set_iter (requires package)).

(** [p['name'].replace('mingw32-', '').replace('mingw64-', '')] *)
Definition normalized (p : Package) : string :=
  str_replace (str_replace (name p) "mingw32-" "") "mingw64-" "".

Definition matchedpackages (packageName : string) : gset string :=
  list_to_set (name <$> filter (λ p, fnmatchcase (normalized p) packageName) _packages).

(** [matchedpackages or {packageName}] *)
Definition expand_token (packageName : string) : gset string :=
  let m := matchedpackages packageName in
  if decide (m = ∅) then {[packageName]} else m.

(** The set [packageNames_new] when the [for] loop of [packagesDownload]
    is over. *)
Definition packageNames_new (packageNames : gset string) : gset string :=
  let literal : gset string := filter (λ pn, endswith pn ".rpm") packageNames in
  foldl (λ acc packageName, acc ∪ expand_token packageName) literal
        (set_iter (packageNames ∖ literal)).

(** The download.  The test is
    [os.path.exists(os.path.join(_packageCacheDirectory, package['filename']))]
    and nothing is fetched when it holds; after [urlretrieve] it holds for
    the file name of the package. *)
Definition fetch (package : Package) (st : loop_state) : loop_state :=
  if decide (filename package ∈ cache st) then st
  else {| packageNames := packageNames st;
          allPackageNames := allPackageNames st;
          packageFilenames := packageFilenames st;
          log := log st ++ [Downloading (filename package)];
          cache := cache st ∪ {[filename package]} |}.

(** The body of the [while] loop. *)
Definition loop_body (withDependencies : bool) (st : loop_state) : loop_state :=
  match list_pop (packageNames st) with
  | None => st
  | Some (rest, packName) =>
      let '(found, log1) := _findPackage packName in
      match found with
      | None =>
          {| packageNames := rest;
             allPackageNames := allPackageNames st;
             packageFilenames := packageFilenames st;
             log := log st ++ log1 ++ [PackageNotFound packName];
             cache := cache st |}
      | Some package =>
          let '(dependencies, log2) :=
            _checkPackageRequirements package (allPackageNames st) in
          let extend := withDependencies && bool_decide (dependencies ≠ ∅) in
          let st1 :=
            {| packageNames := if extend then rest ++ set_iter dependencies else rest;
               allPackageNames :=
                 if extend then allPackageNames st ∪ dependencies else allPackageNames st;
               packageFilenames := packageFilenames st;
               log := log st ++ log1 ++ log2;
               cache := cache st |} in
          let st2 := fetch package st1 in
          {| packageNames := packageNames st2;
             allPackageNames := allPackageNames st2;
             packageFilenames := packageFilenames st2 ++ [filename package];
             log := log st2;
             cache := cache st2 |}
      end
  end.

(** [while packageNames: ...], at most [fuel] turns. *)
Fixpoint while_loop (fuel : nat) (withDependencies : bool) (st : loop_state)
    : option loop_state :=
  match packageNames st with
  | [] => Some st
  | _ :: _ =>
      match fuel with
      | O => None
      | S fuel' => while_loop fuel' withDependencies (loop_body withDependencies st)
      end
  end.

(** The state on entry of the [while] loop. *)
Definition initial_state (requested : gset string) (cache0 : gset string) : loop_state :=
  let new := packageNames_new requested in
  {| packageNames := set_iter new;
     allPackageNames := new;
     packageFilenames := [];
     log := [];
     cache := cache0 |}.

(** Every turn either shortens the queue or moves names of the index into
    [allPackageNames], so this many turns are enough. *)
Definition turns (st : loop_state) : nat :=
  (List.length (packageNames st) + List.length _packages)%nat.

Definition packagesDownload_run (requested : gset string) (withDependencies : bool)
    (cache0 : gset string) : option loop_state :=
  let st := initial_state requested cache0 in
  while_loop (turns st) withDependencies st.

(** [packagesDownload(packageNames, withDependencies)] with the cache
    directory holding [cache0]: the list [packageFilenames] it returns. *)
Definition packagesDownload (requested : gset string) (withDependencies : bool)
    (cache0 : gset string) : option (list string) :=
  packageFilenames <$> packagesDownload_run requested withDependencies cache0.

End Resolver.

(** ** Two set orders to run the model with *)

#[local] Program Instance ascending : SetOrder := {| set_iter := elements |}.
Next Obligation. done. Qed.

#[local] Program Instance descending : SetOrder := {| set_iter := λ X, reverse (elements X) |}.
Next Obligation. intros X. apply reverse_Permutation. Qed.

(** ** The same functions over a store of objects

    Python sets, lists and dicts are objects with an identity: a variable
    holds a reference, an argument is passed by reference, and [|=], [add],
    [pop], [extend] and [append] change the object in place.  To tell which
    objects the three functions change, they are written once more over a
    store that maps references to objects.  Strings and integers cannot be
    changed and are held by value.  Logging and the download touch no
    object and are left out here. *)

Module Store.

Abbreviation loc := positive.

(** A package dict: the sets [provides] and [requires] are objects of
    their own. *)
Record dict := {
  d_name : string;
  d_buildtime : Z;
  d_url : string;
  d_filename : string;
  d_provides : loc;
  d_requires : loc
}.

Inductive obj :=
  | SetObj (X : gset string)
  | ListObj (l : list string)
  | DictObj (d : dict)
  | DictListObj (l : list loc).

Abbreviation heap := (gmap positive obj).

(** Computations that read and change the store; [None] is an exception. *)
Definition M (A : Type) : Type := heap → option (A * heap).

Definition ret {A} (a : A) : M A := λ h, Some (a, h).

Definition bind {A B} (m : M A) (f : A → M B) : M B :=
  λ h, match m h with Some (a, h') => f a h' | None => None end.

Definition raise {A} : M A := λ _, None.

Notation "'let*' x := m 'in' k" := (bind m (λ x, k))
  (at level 10, x name, m at level 100, k at level 200).
Notation "m ;;; k" := (bind m (λ _, k))
  (at level 100, k at level 200, right associativity).

(** A new object; its reference is not in use. *)
Definition alloc (o : obj) : M loc :=
  λ h, let l := fresh (dom h) in Some (l, <[l:=o]> h).

Definition load (l : loc) : M obj :=
  λ h, match h !! l with Some o => Some (o, h) | None => None end.

Definition store (l : loc) (o : obj) : M unit :=
  λ h, match h !! l with Some _ => Some ((), <[l:=o]> h) | None => None end.

Definition load_set (l : loc) : M (gset string) :=
  let* o := load l in match o with SetObj X => ret X | _ => raise end.

Definition load_list (l : loc) : M (list string) :=
  let* o := load l in match o with ListObj k => ret k | _ => raise end.

Definition load_dict (l : loc) : M dict :=
  let* o := load l in match o with DictObj d => ret d | _ => raise end.

Definition load_dicts (l : loc) : M (list loc) :=
  let* o := load l in match o with DictListObj k => ret k | _ => raise end.

(** [for x in l: body] *)
Fixpoint for_each {A} (l : list A) (body : A → M unit) : M unit :=
  match l with
  | [] => ret ()
  | x :: l' => body x ;;; for_each l' body
  end.

(** [[f(p) for p in ps if test(p)]], reading each dict. *)
Fixpoint select {A} (ps : list loc) (test : dict → M bool) (f : loc → dict → A)
    : M (list A) :=
  match ps with
  | [] => ret []
  | p :: ps' =>
      let* d := load_dict p in
      let* b := test d in
      let* rest := select ps' test f in
      ret (if b then f p d :: rest else rest)
  end.

Section Functions.
Context `{!SetOrder}.

(** Operations on sets and lists, by reference. *)

(** [bool(a)] *)
Definition set_truth (a : loc) : M bool :=
  let* X := load_set a in ret (bool_decide (X ≠ ∅)).

(** the members of [a], in the order [for x in a] meets them *)
Definition set_items (a : loc) : M (list string) :=
  let* X := load_set a in ret (set_iter X).

(** [x in a] *)
Definition set_contains (a : loc) (x : string) : M bool :=
  let* X := load_set a in ret (bool_decide (x ∈ X)).

(** [{x for x in a if test(x)}]: a new set *)
Definition set_filter (test : string → bool) (a : loc) : M loc :=
  let* X := load_set a in alloc (SetObj (filter (λ x, test x) X)).

(** [a - b]: a new set *)
Definition set_sub (a b : loc) : M loc :=
  let* X := load_set a in let* Y := load_set b in alloc (SetObj (X ∖ Y)).

(** [a & b]: a new set *)
Definition set_and (a b : loc) : M loc :=
  let* X := load_set a in let* Y := load_set b in alloc (SetObj (X ∩ Y)).

(** [a |= b]: changes [a] *)
Definition set_ior (a b : loc) : M unit :=
  let* X := load_set a in let* Y := load_set b in store a (SetObj (X ∪ Y)).

(** [a.add(x)]: changes [a] *)
Definition set_add (a : loc) (x : string) : M unit :=
  let* X := load_set a in store a (SetObj (X ∪ {[x]})).

(** [a.pop()]: changes [a]; [KeyError] on the empty set *)
Definition set_pop_ref (a : loc) : M string :=
  let* X := load_set a in
  match set_pop X with
  | Some x => store a (SetObj (X ∖ {[x]})) ;;; ret x
  | None => raise
  end.

(** [list(a)]: a new list *)
Definition list_of_set (a : loc) : M loc :=
  let* X := load_set a in alloc (ListObj (set_iter X)).

(** [set(a)]: a new set *)
Definition set_of_list (a : loc) : M loc :=
  let* k := load_list a in alloc (SetObj (list_to_set k)).

(** [a.pop()]: changes [a]; [IndexError] on the empty list *)
Definition list_pop_ref (a : loc) : M string :=
  let* k := load_list a in
  match list_pop k with
  | Some (k', x) => store a (ListObj k') ;;; ret x
  | None => raise
  end.

(** [a.extend(b)] for a set [b]: changes [a] *)
Definition list_extend (a b : loc) : M unit :=
  let* k := load_list a in
  let* X := load_set b in
  store a (ListObj (k ++ set_iter X)).

(** [a.append(x)]: changes [a] *)
Definition list_append (a : loc) (x : string) : M unit :=
  let* k := load_list a in store a (ListObj (k ++ [x])).

(** The module-level variable [_packages]. *)
Variable _packages : loc.

Definition _findPackage (packageName : string) : M (option loc) :=
  let* ps := load_dicts _packages in
  let* matching :=
    select ps
      (λ d, ret (bool_decide (packageName = d_name d ∨ packageName = d_filename d)))
      (λ p d, (p, d_buildtime d)) in
  let* packages := alloc (DictListObj (sorted_reverse snd matching).*1) in
  let* sorted := load_dicts packages in
  ret (head sorted).

(** One turn of the [for] loop of [_checkPackageRequirements]. *)
Definition check_requirement (allProviders packageNames : loc) (requirement : string)
    : M unit :=
  let* ps := load_dicts _packages in
  let* names :=
    select ps (λ p, set_contains (d_provides p) requirement) (λ _ p, d_name p) in
  let* providers := alloc (SetObj (list_to_set names)) in
  let* common := set_and providers packageNames in
  let* some_common := set_truth common in
  if some_common then ret ()
  else
    let* some_provider := set_truth providers in
    if some_provider
    then let* provider := set_pop_ref providers in set_add allProviders provider
    else ret ().

Definition _checkPackageRequirements (package packageNames : loc) : M loc :=
  let* allProviders := alloc (SetObj ∅) in
  let* d := load_dict package in
  let* requirements := set_items (d_requires d) in
  for_each requirements (check_requirement allProviders packageNames) ;;;
  ret allProviders.

Definition loop_body (withDependencies : bool)
    (packageNames allPackageNames packageFilenames : loc) : M unit :=
  let* packName := list_pop_ref packageNames in
  let* package := _findPackage packName in
  match package with
  | None => ret ()
  | Some package =>
      let* dependencies := _checkPackageRequirements package allPackageNames in
      let* some_dependency := set_truth dependencies in
      (if withDependencies && some_dependency
       then list_extend packageNames dependencies ;;;
            set_ior allPackageNames dependencies
       else ret ()) ;;;
      let* d := load_dict package in
      list_append packageFilenames (d_filename d)
  end.

Fixpoint while_loop (fuel : nat) (withDependencies : bool)
    (packageNames allPackageNames packageFilenames : loc) : M unit :=
  let* queue := load_list packageNames in
  match queue with
  | [] => ret ()
  | _ :: _ =>
      match fuel with
      | O => raise
      | S fuel' =>
          loop_body withDependencies packageNames allPackageNames packageFilenames ;;;
          while_loop fuel' withDependencies packageNames allPackageNames packageFilenames
      end
  end.

(** One turn of the [for] loop of [packagesDownload]. *)
Definition expand_token (packageNames_new : loc) (packageName : string) : M unit :=
  let* ps := load_dicts _packages in
  let* names :=
    select ps
      (λ p, ret (fnmatchcase
                   (str_replace (str_replace (d_name p) "mingw32-" "") "mingw64-" "")
                   packageName))
      (λ _ p, d_name p) in
  let* matchedpackages := alloc (SetObj (list_to_set names)) in
  let* some_match := set_truth matchedpackages in
  let* other :=
    if some_match then ret matchedpackages else alloc (SetObj {[packageName]}) in
  set_ior packageNames_new other.

Definition packagesDownload (packageNames : loc) (withDependencies : bool) : M loc :=
  let* packageNames_new := set_filter (λ pn, endswith pn ".rpm") packageNames in
  let* tokens := set_sub packageNames packageNames_new in
  let* tokens := set_items tokens in
  for_each tokens (expand_token packageNames_new) ;;;
  let* packageNames := list_of_set packageNames_new in
  let* allPackageNames := set_of_list packageNames in
  let* packageFilenames := alloc (ListObj []) in
  let* queue := load_list packageNames in
  let* ps := load_dicts _packages in
  while_loop (List.length queue + List.length ps) withDependencies
    packageNames allPackageNames packageFilenames ;;;
  ret packageFilenames.
End Functions.

(** The store holds the index [ps] at [_packages]: a list of dicts, one
    per package, each with its two sets. *)
Definition holds_package (h : heap) (l : loc) (p : Package) : Prop :=
  ∃ d, h !! l = Some (DictObj d) ∧
       d_name d = name p ∧ d_buildtime d = buildtime p ∧
       d_url d = url p ∧ d_filename d = filename p ∧
       h !! d_provides d = Some (SetObj (provides p)) ∧
       h !! d_requires d = Some (SetObj (requires p)).

Definition holds_index (h : heap) (_packages : loc) (ps : list Package) : Prop :=
  ∃ ls, h !! _packages = Some (DictListObj ls) ∧ Forall2 (holds_package h) ls ps.

(** [m] started in [h] returns: it raises nothing, leaves every object of
    [base] as it is, and ends with [Q]. *)
Definition returns {A} (base : heap) (m : M A) (h : heap) (Q : A → heap → Prop) : Prop :=
  ∃ a h', m h = Some (a, h') ∧ base ⊆ h' ∧ Q a h'.

End Store.

(** ** Sample indexes *)

Module Sample.
Definition repository : string := "http://download.opensuse.org/repositories/windows:/mingw:/win32/openSUSE_13.2/".

Definition package (n : string) (t : Z) (f : string) (p r : gset string) : Package :=
  {| name := n; buildtime := t; url := repository +:+ "noarch/" +:+ f;
     filename := f; provides := p; requires := r |}.

(** [B] needs the capability that [A] provides. *)
Definition A : Package := package "A" 1 "A-1.0-1.1.noarch.rpm" {["a"]} ∅.
Definition B : Package := package "B" 2 "B-1.0-1.1.noarch.rpm" {["b"]} {["a"]}.

(** Two packages provide what [B] needs. *)
Definition A1 : Package := package "A1" 1 "A1-1.0-1.1.noarch.rpm" {["a"]} ∅.
Definition A2 : Package := package "A2" 1 "A2-1.0-1.1.noarch.rpm" {["a"]} ∅.
Definition two_providers : list Package := [A1; A2; B].

(** Three builds of one package, the two newest of the same build time. *)
Definition zlib_7 : Package :=
  package "mingw32-zlib" 1398000000 "mingw32-zlib-1.2.7-1.1.noarch.rpm" {["mingw32(zlib1.dll)"]} ∅.
Definition zlib_8a : Package :=
  package "mingw32-zlib" 1426000000 "mingw32-zlib-1.2.8-1.1.noarch.rpm" {["mingw32(zlib1.dll)"]} ∅.
Definition zlib_8b : Package :=
  package "mingw32-zlib" 1426000000 "mingw32-zlib-1.2.8-1.2.noarch.rpm" {["mingw32(zlib1.dll)"]} ∅.
Definition zlibs : list Package := [zlib_7; zlib_8a; zlib_8b].

(** The same library for the two targets, and a package whose name has
    [mingw32-] in the middle. *)
Definition foobar32 : Package :=
  package "mingw32-foobar" 1 "mingw32-foobar-1.0-1.1.noarch.rpm" ∅ ∅.
Definition foobar64 : Package :=
  package "mingw64-foobar" 1 "mingw64-foobar-1.0-1.1.noarch.rpm" ∅ ∅.
Definition libfoo : Package :=
  package "libmingw32-foo" 1 "libmingw32-foo-1.0-1.1.noarch.rpm" ∅ ∅.
Definition foobars : list Package := [foobar32; foobar64; libfoo].

(** A store that holds the index [[A; B]] at reference 7 and the request
    [{"B"}] at reference 8. *)
Definition dict_A : Store.dict :=
  {| Store.d_name := name A; Store.d_buildtime := buildtime A; Store.d_url := url A;
     Store.d_filename := filename A; Store.d_provides := 1; Store.d_requires := 2 |}.
Definition dict_B : Store.dict :=
  {| Store.d_name := name B; Store.d_buildtime := buildtime B; Store.d_url := url B;
     Store.d_filename := filename B; Store.d_provides := 4; Store.d_requires := 5 |}.
Definition objects : Store.heap :=
  list_to_map
    [(1%positive, Store.SetObj (provides A)); (2%positive, Store.SetObj (requires A));
     (3%positive, Store.DictObj dict_A);
     (4%positive, Store.SetObj (provides B)); (5%positive, Store.SetObj (requires B));
     (6%positive, Store.DictObj dict_B);
     (7%positive, Store.DictListObj [3%positive; 6%positive]);
     (8%positive, Store.SetObj {["B"]})].
End Sample.

(** ** Vocabulary of the properties *)

(** The normal form of a package name as the specification words it: a
    leading [mingw32-] or [mingw64-], if there is one, is stripped. *)
Definition strip_leading_prefix (s : string) : string :=
  if String.prefix "mingw32-" s then substring 8 (String.length s - 8) s
  else if String.prefix "mingw64-" s then substring 8 (String.length s - 8) s
  else s.

Section Vocabulary.
Context `{!SetOrder}.
Variable _packages : list Package.

(** What one requirement contributes to [allProviders]. *)
Definition chosen (packageNames : gset string) (requirement : string) : option string :=
  if decide (providersOf _packages requirement ∩ packageNames = ∅)
  then set_pop (providersOf _packages requirement)
  else None.

(** What one turn of the loop of [_checkPackageRequirements] makes of
    [allProviders]. *)
Definition add_chosen (packageNames acc : gset string) (requirement : string)
    : gset string :=
  match chosen packageNames requirement with Some d => acc ∪ {[d]} | None => acc end.

(** The file name appended to [packageFilenames] when [packName] is
    popped, if any. *)
Definition found_filename (packName : string) : option string :=
  filename <$> (_findPackage _packages packName).1.

(** The names appended to the queue when [packName] is popped. *)
Definition pushed (withDependencies : bool) (seen : gset string) (packName : string)
    : list string :=
  match (_findPackage _packages packName).1 with
  | Some package =>
      if withDependencies
      then set_iter (_checkPackageRequirements _packages package seen).1
      else []
  | None => []
  end.

(** [drains st names st']: started in [st], the loop pops the names
    [names], in this order, and stops in [st'] with an empty queue. *)
Inductive drains (withDependencies : bool) : loop_state → list string → loop_state → Prop :=
  | drains_done st :
      packageNames st = [] → drains withDependencies st [] st
  | drains_pop st q n names st' :
      packageNames st = q ++ [n] →
      drains withDependencies (loop_body _packages withDependencies st) names st' →
      drains withDependencies st (n :: names) st'.

(** The names of the index that have not been queued yet. *)
Definition unseen (st : loop_state) : gset string :=
  list_to_set (name <$> _packages) ∖ allPackageNames st.

Definition measure (st : loop_state) : nat :=
  (List.length (packageNames st) + size (unseen st))%nat.

(** [n] is what the requested token [tok] stands for before the loop
    starts: itself when it is a literal file name, otherwise the names it
    matches as a pattern, or itself when it matches none. *)
Definition directly_matched (tok n : string) : Prop :=
  if endswith tok ".rpm" then n = tok else n ∈ expand_token _packages tok.

(** The names a pattern matches when names are normalised as the
    specification words it. *)
Definition matched_by_leading_prefix (packageName : string) : gset string :=
  list_to_set
    (name <$> filter (λ p, fnmatchcase (strip_leading_prefix (name p)) packageName)
                     _packages).

(** Indexes as repositories have them: the file names end in [.rpm] and
    are pairwise different, and no package name ends in [.rpm]. *)
Definition archive_filenames : Prop :=
  Forall (λ p, endswith (filename p) ".rpm") _packages ∧
  Forall (λ p, ¬ endswith (name p) ".rpm") _packages ∧
  NoDup (filename <$> _packages).

(** No capability is provided under two different package names. *)
Definition single_provider : Prop :=
  Forall (λ p, Forall (λ q, provides p ∩ provides q ≠ ∅ → name p = name q) _packages)
         _packages.
End Vocabulary.

(** ** The rest of the script *)

(** [os.path.basename(p)] under the path rules of POSIX ([posixpath]): what
    follows the last ['/'] of [p]. *)
Fixpoint has_slash (p : string) : bool :=
  match p with
  | EmptyString => false
  | String c p' => Ascii.eqb c "/"%char || has_slash p'
  end.

Fixpoint basename (p : string) : string :=
  match p with
  | EmptyString => EmptyString
  | String c p' =>
      if has_slash p' then basename p'
      else if Ascii.eqb c "/"%char then p' else p
  end.

(** A [package] element of the primary metadata, as [OpenRepository] reads
    it: the text of [name] and [arch], the attribute [build] of [time], the
    attribute [href] of [location], and the [name] attributes of the entries
    of [provides] and [requires]. *)
Record element := {
  e_name : string;
  e_arch : string;
  e_build : string;
  e_href : string;
  e_provides : list string;
  e_requires : list string
}.

Section OpenRepository.
(** [int(s)]; [None] stands for [ValueError]. *)
Variable int : string → option Z.

(** The dict [OpenRepository] builds for one element. *)
Definition package_of (repositoryLocation : string) (p : element) : option Package :=
  t ← int (e_build p);
  Some {| name := e_name p;
          buildtime := t;
          url := repositoryLocation +:+ e_href p;
          filename := basename (e_href p);
          provides := list_to_set (e_provides p);
          requires := list_to_set (e_requires p) |}.

(** The list comprehension that [OpenRepository] assigns to [_packages]. *)
Definition parsed_packages (repositoryLocation arch : string) (elements : list element)
    : option (list Package) :=
  mapM (package_of repositoryLocation) (filter (λ p, e_arch p = arch) elements).
End OpenRepository.

(** [main]: the repository location made of the options. *)
Definition repository_location (repo_url project repository : string) : string :=
  str_replace (str_replace repo_url "PROJECT" (str_replace project ":" ":/"))
              "REPOSITORY" repository.

(** [main]: the package the zip and metadata files are named after,
    [_findPackage(a) or _findPackage("mingw32-"+a) or _findPackage("mingw64-"+a)];
    [None] ends the run with [Package not found]. *)
Definition named_package (_packages : list Package) (arg : string) : option Package :=
  match (_findPackage _packages arg).1 with
  | Some p => Some p
  | None =>
      match (_findPackage _packages ("mingw32-" +:+ arg)).1 with
      | Some p => Some p
      | None => (_findPackage _packages ("mingw64-" +:+ arg)).1
      end
  end.

(** [main]: [[p for p in _packages if p['filename'] == packageFilename][0]];
    [None] stands for [IndexError]. *)
Definition metadata_package (_packages : list Package) (packageFilename : string)
    : option Package :=
  head (filter (λ p, filename p = packageFilename) _packages).

(** ** More vocabulary *)

(** The files a log says were downloaded, in order. *)
(** A file name that names an entry of the directory it is joined to: it is
    not empty, not [.] or [..], and holds no ['/'].  [OpenRepository] gives
    every package a file name without ['/']. *)
Definition entry_name (f : string) : bool :=
  negb (has_slash f) && negb (String.eqb f "") && negb (String.eqb f ".")
  && negb (String.eqb f "..").

Definition downloads (l : list diag) : list string :=
  omap (λ d, match d with Downloading f => Some f | _ => None end) l.

(** [old in s] *)
Fixpoint contains (old s : string) : bool :=
  String.prefix old s ||
  match s with
  | EmptyString => false
  | String _ s' => contains old s'
  end.

(** A pattern without [*], [?] and [[]. *)
Definition plain (pat : string) : Prop :=
  Forall (λ c, c ≠ "*"%char ∧ c ≠ "?"%char ∧ c ≠ "["%char) (list_ascii_of_string pat).

(** What one turn of the loop of [_checkPackageRequirements] logs. *)
Definition requirement_event `{!SetOrder} (_packages : list Package) (package : Package)
    (packageNames : gset string) (requirement : string) : option diag :=
  let providers := providersOf _packages requirement in
  if decide (providers ∩ packageNames = ∅) then
    Some (match set_pop providers with
          | Some _ => RequiresProvidedBy (name package) requirement (set_iter providers)
          | None => RequiresNotProvided (name package) requirement
          end)
  else None.

(** ** File and capability names in [main] *)

Definition newline : ascii := "010"%char.

Fixpoint string_drop (n : nat) (s : string) : string :=
  match n, s with
  | S k, String _ s' => string_drop k s'
  | _, _ => s
  end.

(** [^mingw(32|64)-]: [^] matches at the start of the string only. *)
Definition mingw_dash (s : string) : bool :=
  String.prefix "mingw32-" s || String.prefix "mingw64-" s.

(** [$] matches at the end of the string and before a newline that ends
    the string. *)
Definition at_end (s : string) : bool :=
  match s with
  | EmptyString => true
  | String c EmptyString => Ascii.eqb c newline
  | _ => false
  end.

(** The length of the match of [\.noarch|\.rpm$] at the head of [s]. *)
Definition match_suffix (s : string) : option nat :=
  if String.prefix ".noarch" s then Some 7%nat
  else if String.prefix ".rpm" s && at_end (string_drop 4 s) then Some 4%nat
  else None.

(** [re.sub(..., '', s)] from a position that is not the start: the matches
    are taken from the left, do not overlap and are dropped; [skip] is what
    is left of the current match. *)
Fixpoint sub_suffixes (skip : nat) (s : string) : string :=
  match s with
  | EmptyString => EmptyString
  | String c s' =>
      match skip with
      | S k => sub_suffixes k s'
      | O =>
          match match_suffix s with
          | Some n => sub_suffixes (n - 1) s'
          | None => String c (sub_suffixes 0 s')
          end
      end
  end.

(** [re.sub('^mingw(32|64)-|\\.noarch|\\.rpm$', '', package['filename'])] *)
Definition packageBasename (filename : string) : string :=
  if mingw_dash filename then sub_suffixes 8 filename
  else sub_suffixes 0 filename.

(** [^mingw(?:32|64)[(]] *)
Definition mingw_paren (s : string) : bool :=
  String.prefix "mingw32(" s || String.prefix "mingw64(" s.

(** The group [.*] and the closing parenthesis after it, on the text that
    follows the opening one: [.] matches no newline and [.*] is greedy, so
    the group ends at the last closing parenthesis of the first line.  The
    result is the group and the text after the match. *)
Fixpoint group_paren (s : string) : option (string * string) :=
  match s with
  | EmptyString => None
  | String c s' =>
      if Ascii.eqb c newline then None
      else
        match group_paren s' with
        | Some (g, rest) => Some (String c g, rest)
        | None => if Ascii.eqb c ")"%char then Some (EmptyString, s') else None
        end
  end.

(** The inner [re.sub] of [cleanup], pattern [^mingw(?:32|64)[(]], the
    group, [[)]]: it matches at the start or nowhere, and the match is
    replaced by its group. *)
Definition cleanup_inner (n : string) : string :=
  if mingw_paren n then
    match group_paren (string_drop 8 n) with
    | Some (g, rest) => g +:+ rest
    | None => n
    end
  else n.

(** The outer [re.sub] of [cleanup], pattern [^mingw(?:32|64)-] and the
    group [.*]: the match is the prefix and the rest of the first line, the
    group is that rest, so that the prefix is what goes. *)
Definition cleanup_outer (n : string) : string :=
  if mingw_dash n then string_drop 8 n else n.

Definition cleanup (n : string) : string := cleanup_outer (cleanup_inner n).

(** * Properties *)

(** ** The string functions on concrete names *)

Example fnmatchcase_star : fnmatchcase "foobar" "foo*" = true.
Proof. reflexivity. Qed.

Example fnmatchcase_case : fnmatchcase "foobar" "Foo*" = false.
Proof. reflexivity. Qed.

Example fnmatchcase_class : fnmatchcase "gtk3" "gtk[2-3]" = true.
Proof. reflexivity. Qed.

Example fnmatchcase_negated : fnmatchcase "gtk3" "gtk[!2-3]" = false.
Proof. reflexivity. Qed.

Example fnmatchcase_open_bracket : fnmatchcase "a[b" "a[?" = true.
Proof. reflexivity. Qed.

Example fnmatchcase_members :
  fnmatchcase "gtk2" "gtk[23]" = true ∧ fnmatchcase "gtk3" "gtk[23]" = true ∧
  fnmatchcase "gtk4" "gtk[23]" = false ∧ fnmatchcase "A" "[AB]" = true ∧
  fnmatchcase "-" "[a-c-e]" = true ∧ fnmatchcase "d" "[a-c-e]" = false.
Proof. by split_and!. Qed.

(** Ranges that are empty are removed by [translate], down to a set that
    is empty or the negation of one. *)
Example fnmatchcase_empty_range :
  fnmatchcase "b" "[b-a]" = false ∧ fnmatchcase "x" "[!b-a]" = true ∧
  fnmatchcase "x" "[b-!!]" = true.
Proof. by split_and!. Qed.

Example str_replace_all : str_replace "mingw32-libmingw32-x" "mingw32-" "" = "libx".
Proof. reflexivity. Qed.

Example endswith_rpm : endswith "mingw32-zlib-1.2.8-1.1.noarch.rpm" ".rpm" = true.
Proof. reflexivity. Qed.

(** ** Lists and set orders *)

Lemma list_pop_snoc {A} (l : list A) (x : A) : list_pop (l ++ [x]) = Some (l, x).
Proof.
  induction l as [|y l IH]; simpl; [done|]. by rewrite IH.
Qed.

Lemma list_pop_nil_inv {A} (l : list A) : list_pop l = None → l = [].
Proof.
  destruct l as [|x l]; [done|]. simpl.
  by destruct (list_pop l) as [[??]|].
Qed.

Lemma list_pop_Some {A} (l rest : list A) (x : A) :
  list_pop l = Some (rest, x) → l = rest ++ [x].
Proof.
  revert rest. induction l as [|y l IH]; intros rest; simpl; [done|].
  destruct (list_pop l) as [[l'' z]|] eqn:E.
  - intros [= <- <-]. simpl. f_equal. by apply IH.
  - intros [= <- <-]. apply list_pop_nil_inv in E. by subst.
Qed.

Section SetOrderFacts.
Context `{!SetOrder}.

Lemma elem_of_set_iter (X : gset string) (x : string) : x ∈ set_iter X ↔ x ∈ X.
Proof. rewrite (set_iter_perm X). apply elem_of_elements. Qed.

Lemma NoDup_set_iter (X : gset string) : NoDup (set_iter X).
Proof. rewrite (set_iter_perm X). apply NoDup_elements. Qed.

Lemma length_set_iter (X : gset string) : List.length (set_iter X) = size X.
Proof. by rewrite (set_iter_perm X). Qed.

Lemma set_iter_empty : set_iter ∅ = [].
Proof.
  apply Permutation_nil_r. rewrite (set_iter_perm ∅). by rewrite elements_empty.
Qed.

Lemma set_iter_singleton (x : string) : set_iter {[x]} = [x].
Proof.
  apply Permutation_singleton_r. rewrite (set_iter_perm {[x]}).
  by rewrite elements_singleton.
Qed.

Lemma set_iter_nil_inv (X : gset string) : set_iter X = [] → X = ∅.
Proof.
  intros E. apply leibniz_equiv, elements_empty_inv.
  apply Permutation_nil_r. by rewrite <- (set_iter_perm X), E.
Qed.

Lemma list_to_set_set_iter (X : gset string) : list_to_set (set_iter X) = X.
Proof. apply set_eq. intros x. by rewrite elem_of_list_to_set, elem_of_set_iter. Qed.

Lemma set_pop_Some (X : gset string) (x : string) : set_pop X = Some x → x ∈ X.
Proof.
  unfold set_pop. intros E. apply elem_of_set_iter.
  destruct (set_iter X) as [|y l]; simplify_eq/=. left.
Qed.

Lemma set_pop_None (X : gset string) : set_pop X = None ↔ X = ∅.
Proof.
  unfold set_pop. split.
  - intros E. apply set_iter_nil_inv. by destruct (set_iter X).
  - intros ->. by rewrite set_iter_empty.
Qed.

Lemma set_pop_is_Some (X : gset string) : X ≠ ∅ → ∃ x, set_pop X = Some x ∧ x ∈ X.
Proof.
  intros HX. destruct (set_pop X) as [x|] eqn:E.
  - exists x. split; [done|]. by apply set_pop_Some.
  - by apply set_pop_None in E.
Qed.
End SetOrderFacts.

(** ** [sorted] *)

Section Sorted.
Context {A : Type} (key : A → Z).

Lemma insert_desc_perm (x : A) (l : list A) : insert_desc key x l ≡ₚ x :: l.
Proof.
  induction l as [|y l IH]; simpl; [done|].
  destruct (key y <=? key x); [done|].
  rewrite IH. apply Permutation_swap.
Qed.

Lemma sorted_reverse_perm (l : list A) : sorted_reverse key l ≡ₚ l.
Proof.
  induction l as [|x l IH]; simpl; [done|].
  by rewrite insert_desc_perm, IH.
Qed.

Lemma sorted_reverse_nil_inv (l : list A) : sorted_reverse key l = [] → l = [].
Proof.
  intros E. apply Permutation_nil_r. by rewrite <- sorted_reverse_perm, E.
Qed.

Lemma sorted_reverse_length (l : list A) :
  List.length (sorted_reverse key l) = List.length l.
Proof. by rewrite sorted_reverse_perm. Qed.

(** The head of the sorted list is the first member of [l] whose key is
    the greatest: everything before it in [l] has a smaller key, nothing
    after it a greater one. *)
Lemma sorted_reverse_head (l : list A) :
  l ≠ [] →
  ∃ p rest before after,
    sorted_reverse key l = p :: rest ∧
    l = before ++ p :: after ∧
    (∀ q, q ∈ before → key q < key p) ∧
    (∀ q, q ∈ after → key q ≤ key p).
Proof.
  induction l as [|x l IH]; [done|]. intros _.
  destruct l as [|y l].
  { exists x, [], [], []. simpl. repeat split; intros q Hq; by apply elem_of_nil in Hq. }
  destruct IH as (p & rest & before & after & Hs & Hl & Hb & Ha); [done|].
  change (sorted_reverse key (x :: y :: l))
    with (insert_desc key x (sorted_reverse key (y :: l))).
  rewrite Hs. simpl. destruct (key p <=? key x) eqn:E.
  - apply Z.leb_le in E. exists x, (p :: rest), [], (y :: l).
    repeat split; [by intros q Hq%elem_of_nil|].
    intros q Hq. rewrite Hl in Hq.
    apply elem_of_app in Hq as [Hq|Hq].
    + specialize (Hb q Hq). lia.
    + apply elem_of_cons in Hq as [->|Hq]; [done|]. specialize (Ha q Hq). lia.
  - apply Z.leb_gt in E. exists p, (insert_desc key x rest), (x :: before), after.
    repeat split; [by rewrite Hl| |done].
    intros q Hq. apply elem_of_cons in Hq as [->|Hq]; [done|]. by apply Hb.
Qed.
End Sorted.

(** ** [_findPackage] *)

Section FindPackage.
Variable _packages : list Package.

Lemma findByNameOrFilename_elem (packageName : string) (p : Package) :
  p ∈ findByNameOrFilename _packages packageName ↔
  p ∈ _packages ∧ name_or_filename packageName p.
Proof.
  unfold findByNameOrFilename. rewrite sorted_reverse_perm, list_elem_of_filter. tauto.
Qed.

Lemma _findPackage_Some (packageName : string) (p : Package) :
  (_findPackage _packages packageName).1 = Some p →
  p ∈ _packages ∧ name_or_filename packageName p.
Proof.
  unfold _findPackage. intros E. apply findByNameOrFilename_elem.
  destruct (findByNameOrFilename _packages packageName) as [|q l]; simplify_eq/=. left.
Qed.

Lemma _findPackage_None (packageName : string) :
  (_findPackage _packages packageName).1 = None ↔
  findByNameOrFilename _packages packageName = [].
Proof.
  unfold _findPackage. by destruct (findByNameOrFilename _packages packageName).
Qed.

Lemma _findPackage_is_Some (packageName : string) (p : Package) :
  p ∈ _packages → name_or_filename packageName p →
  ∃ q, (_findPackage _packages packageName).1 = Some q.
Proof.
  intros Hp Hm.
  destruct (_findPackage _packages packageName).1 as [q|] eqn:E; [by exists q|].
  apply _findPackage_None in E.
  assert (p ∈ findByNameOrFilename _packages packageName) as Hin
    by by apply findByNameOrFilename_elem.
  rewrite E in Hin. by apply elem_of_nil in Hin.
Qed.
End FindPackage.

(** C2.  When a token matches two or more packages of the index by name or
    file name, [_findPackage] reports the ambiguity and selects a matching
    package of greatest build time; among the matches of greatest build time
    it selects the one that comes first in the index.  The selection is a
    function of the index and the token alone: the order of sets plays no
    part in it. *)
Theorem findPackage_selects_newest (_packages : list Package) (packageName : string) :
  let matching := filter (name_or_filename packageName) _packages in
  (2 ≤ List.length matching)%nat →
  ∃ p before after,
    (_findPackage _packages packageName).1 = Some p ∧
    matching = before ++ p :: after ∧
    (∀ q, q ∈ before → buildtime q < buildtime p) ∧
    (∀ q, q ∈ after → buildtime q ≤ buildtime p) ∧
    (∀ q, q ∈ matching → buildtime q ≤ buildtime p) ∧
    MultiplePackages packageName ∈ (_findPackage _packages packageName).2.
Proof.
  intros matching Hlen.
  destruct (sorted_reverse_head buildtime matching)
    as (p & rest & before & after & Hs & Hl & Hb & Ha).
  { intros E. rewrite E in Hlen. simpl in Hlen. lia. }
  assert ((1 <? List.length (sorted_reverse buildtime matching))%nat = true) as Hlt.
  { rewrite sorted_reverse_length. apply Nat.ltb_lt. lia. }
  exists p, before, after.
  unfold _findPackage, findByNameOrFilename. fold matching. cbv zeta.
  rewrite Hlt, Hs. simpl.
  repeat split; try done.
  - intros q Hq. rewrite Hl in Hq. apply elem_of_app in Hq as [Hq|Hq].
    + specialize (Hb q Hq). lia.
    + apply elem_of_cons in Hq as [->|Hq]; [done|]. by apply Ha.
  - left.
Qed.

Lemma filter_unique {A} (P : A → Prop) `{!∀ x, Decision (P x)} (l : list A) (x : A) :
  NoDup l → x ∈ l → P x → (∀ y, y ∈ l → P y → y = x) → filter P l = [x].
Proof.
  intros Hnd Hx HP Huniq.
  induction Hnd as [|y l Hy Hnd IH]; [by apply elem_of_nil in Hx|].
  rewrite filter_cons. apply elem_of_cons in Hx as [<-|Hx].
  - rewrite decide_True by done. f_equal.
    apply elem_of_nil_inv. intros z [HPz Hz]%list_elem_of_filter.
    assert (z = x) as -> by (apply Huniq; [by right|done]). done.
  - destruct (decide (P y)) as [HPy|HPy].
    + assert (y = x) as -> by (apply Huniq; [left|done]). done.
    + apply IH; [done|]. intros z Hz. apply Huniq. by right.
Qed.

(** C7.  In an index whose file names are pairwise different, looking up the
    file name of a package [P] of the index, when no other package is named
    like that file name, gives the list holding [P] and nothing else; hence
    [_findPackage] returns [P] and reports no ambiguity. *)
Theorem findByNameOrFilename_filename (_packages : list Package) (P : Package) :
  P ∈ _packages →
  NoDup (filename <$> _packages) →
  (∀ Q, Q ∈ _packages → Q ≠ P → name Q ≠ filename P) →
  findByNameOrFilename _packages (filename P) = [P] ∧
  _findPackage _packages (filename P) = (Some P, []).
Proof.
  intros HP Hnd Hname.
  assert (findByNameOrFilename _packages (filename P) = [P]) as E.
  { unfold findByNameOrFilename. rewrite (filter_unique _ _ P); [done| | | |].
    - by apply NoDup_fmap_1 in Hnd.
    - done.
    - by right.
    - intros Q HQ [HQn|HQf].
      + destruct (decide (Q = P)) as [|Hne]; [done|]. by destruct (Hname Q HQ Hne).
      + apply list_elem_of_lookup in HQ as [i Hi], HP as [j Hj].
        assert (i = j) as ->; [|congruence].
        eapply NoDup_lookup; [exact Hnd| |].
        * by rewrite list_lookup_fmap, Hi.
        * rewrite list_lookup_fmap, Hj. simpl. by rewrite HQf. }
  split; [done|]. unfold _findPackage. by rewrite E.
Qed.

(** ** [_checkPackageRequirements] *)

Section CheckRequirements.
Context `{!SetOrder}.
Variable _packages : list Package.

Lemma elem_of_providersOf (requirement d : string) :
  d ∈ providersOf _packages requirement ↔
  ∃ p, p ∈ _packages ∧ requirement ∈ provides p ∧ name p = d.
Proof.
  unfold providersOf. rewrite elem_of_list_to_set, list_elem_of_fmap.
  split.
  - intros (p & -> & [Hr Hp]%list_elem_of_filter). by exists p.
  - intros (p & Hp & Hr & <-). exists p. split; [done|].
    by apply list_elem_of_filter.
Qed.

Lemma check_requirement_fst package packageNames acc requirement :
  (check_requirement _packages package packageNames acc requirement).1 =
  match chosen _packages packageNames requirement with
  | Some d => acc.1 ∪ {[d]}
  | None => acc.1
  end.
Proof.
  unfold check_requirement, chosen. cbv zeta.
  destruct (decide _); [|done].
  by destruct (set_pop _).
Qed.

Lemma foldl_check_requirement package packageNames (l : list string) acc (d : string) :
  d ∈ (foldl (check_requirement _packages package packageNames) acc l).1 ↔
  d ∈ acc.1 ∨ ∃ r, r ∈ l ∧ chosen _packages packageNames r = Some d.
Proof.
  revert acc. induction l as [|r l IH]; intros acc; simpl.
  - split; [by left|]. intros [?|(r & Hr & _)]; [done|]. by apply elem_of_nil in Hr.
  - rewrite IH, check_requirement_fst. split.
    + intros [Hd|(r' & Hr' & Hc)].
      * destruct (chosen _packages packageNames r) as [d'|] eqn:E; [|by left].
        apply elem_of_union in Hd as [Hd|Hd]; [by left|].
        apply elem_of_singleton in Hd as ->. right. exists r. split; [left|done].
      * right. exists r'. split; [by right|done].
    + intros [Hd|(r' & Hr' & Hc)].
      * left. destruct (chosen _packages packageNames r); [|done]. set_solver.
      * apply elem_of_cons in Hr' as [->|Hr'].
        -- left. rewrite Hc. set_solver.
        -- right. by exists r'.
Qed.

(** The providers returned: one for every requirement of the package whose
    providers are all outside [packageNames], namely the one [pop] gives. *)
Lemma elem_of_checkPackageRequirements package packageNames (d : string) :
  d ∈ (_checkPackageRequirements _packages package packageNames).1 ↔
  ∃ r, r ∈ requires package ∧ chosen _packages packageNames r = Some d.
Proof.
  unfold _checkPackageRequirements. rewrite foldl_check_requirement. simpl.
  split.
  - intros [Hd|(r & Hr & Hc)]; [set_solver|].
    exists r. split; [|done]. by apply elem_of_set_iter.
  - intros (r & Hr & Hc). right. exists r. split; [|done]. by apply elem_of_set_iter.
Qed.

Lemma chosen_Some packageNames requirement d :
  chosen _packages packageNames requirement = Some d →
  d ∈ providersOf _packages requirement ∧ d ∉ packageNames.
Proof.
  unfold chosen. destruct (decide _) as [Hdisj|]; [|done].
  intros Hd%set_pop_Some. split; [done|]. set_solver.
Qed.

(** A dependency is the name of a package of the index and is not in
    [packageNames] yet. *)
Lemma checkPackageRequirements_fresh package packageNames (d : string) :
  d ∈ (_checkPackageRequirements _packages package packageNames).1 →
  (d ∉ packageNames) ∧ d ∈ (name <$> _packages).
Proof.
  intros (r & Hr & Hc)%elem_of_checkPackageRequirements.
  apply chosen_Some in Hc as [Hd Hn]. split; [done|].
  apply elem_of_providersOf in Hd as (p & Hp & _ & <-).
  by apply list_elem_of_fmap_2.
Qed.

(** After the dependencies have joined [packageNames], every requirement
    of the package that anything provides has a provider among them. *)
Lemma checkPackageRequirements_satisfied package packageNames (r : string) :
  r ∈ requires package → providersOf _packages r ≠ ∅ →
  providersOf _packages r ∩
    (packageNames ∪ (_checkPackageRequirements _packages package packageNames).1) ≠ ∅.
Proof.
  intros Hr Hne.
  destruct (decide (providersOf _packages r ∩ packageNames = ∅)) as [Hdisj|Hin];
    [|set_solver].
  destruct (set_pop_is_Some _ Hne) as (d & Hpop & Hd).
  assert (d ∈ (_checkPackageRequirements _packages package packageNames).1).
  { apply elem_of_checkPackageRequirements. exists r. split; [done|].
    unfold chosen. by rewrite decide_True. }
  set_solver.
Qed.
End CheckRequirements.

(** ** The loop of [packagesDownload] *)

Section Loop.
Context `{!SetOrder}.
Variable _packages : list Package.

Lemma fetch_packageNames package st :
  packageNames (fetch package st) = packageNames st.
Proof. unfold fetch. by destruct (decide _). Qed.

Lemma fetch_allPackageNames package st :
  allPackageNames (fetch package st) = allPackageNames st.
Proof. unfold fetch. by destruct (decide _). Qed.

Lemma fetch_packageFilenames package st :
  packageFilenames (fetch package st) = packageFilenames st.
Proof. unfold fetch. by destruct (decide _). Qed.

Lemma loop_body_packageNames withDependencies st q n :
  packageNames st = q ++ [n] →
  packageNames (loop_body _packages withDependencies st) =
  q ++ pushed _packages withDependencies (allPackageNames st) n.
Proof.
  intros Hq. unfold loop_body, pushed. rewrite Hq, list_pop_snoc.
  destruct (_findPackage _packages n) as [[package|] log1]; simpl;
    [|by rewrite app_nil_r].
  destruct (_checkPackageRequirements _packages package (allPackageNames st))
    as [dependencies log2]; simpl.
  rewrite fetch_packageNames. simpl.
  destruct withDependencies; simpl; [|by rewrite app_nil_r].
  case_bool_decide as Hd; [done|].
  by rewrite Hd, set_iter_empty, app_nil_r.
Qed.

Lemma loop_body_allPackageNames withDependencies st q n :
  packageNames st = q ++ [n] →
  allPackageNames (loop_body _packages withDependencies st) =
  allPackageNames st ∪ list_to_set (pushed _packages withDependencies (allPackageNames st) n).
Proof.
  intros Hq. unfold loop_body, pushed. rewrite Hq, list_pop_snoc.
  destruct (_findPackage _packages n) as [[package|] log1]; simpl;
    [|set_solver].
  destruct (_checkPackageRequirements _packages package (allPackageNames st))
    as [dependencies log2]; simpl.
  rewrite fetch_allPackageNames. simpl.
  destruct withDependencies; simpl; [|set_solver].
  rewrite list_to_set_set_iter.
  case_bool_decide as Hd; [done|].
  set_solver.
Qed.

Lemma loop_body_packageFilenames withDependencies st q n :
  packageNames st = q ++ [n] →
  packageFilenames (loop_body _packages withDependencies st) =
  packageFilenames st ++ option_list (found_filename _packages n).
Proof.
  intros Hq. unfold loop_body, found_filename. rewrite Hq, list_pop_snoc.
  destruct (_findPackage _packages n) as [[package|] log1]; simpl;
    [|by rewrite app_nil_r].
  destruct (_checkPackageRequirements _packages package (allPackageNames st))
    as [dependencies log2]; simpl.
  by rewrite fetch_packageFilenames.
Qed.

Lemma NoDup_pushed withDependencies seen n : NoDup (pushed _packages withDependencies seen n).
Proof.
  unfold pushed. destruct (_findPackage _packages n).1; [|constructor].
  destruct withDependencies; [apply NoDup_set_iter|constructor].
Qed.

Lemma pushed_fresh withDependencies seen n d :
  d ∈ pushed _packages withDependencies seen n → (d ∉ seen) ∧ d ∈ (name <$> _packages).
Proof.
  unfold pushed. destruct (_findPackage _packages n).1 as [package|];
    [|by intros ?%elem_of_nil].
  destruct withDependencies; [|by intros ?%elem_of_nil].
  intros Hd%elem_of_set_iter. by eapply checkPackageRequirements_fresh.
Qed.

Lemma pushed_false seen n : pushed _packages false seen n = [].
Proof. unfold pushed. by destruct (_findPackage _packages n).1. Qed.

Lemma packageNames_snoc st :
  packageNames st ≠ [] → ∃ q n, packageNames st = q ++ [n].
Proof.
  intros Hne. destruct (list_pop (packageNames st)) as [[q n]|] eqn:E.
  - exists q, n. by apply list_pop_Some.
  - by apply list_pop_nil_inv in E.
Qed.

Lemma while_loop_drains fuel withDependencies st st' :
  while_loop _packages fuel withDependencies st = Some st' →
  ∃ names, drains _packages withDependencies st names st'.
Proof.
  revert st. induction fuel as [|fuel IH]; intros st; simpl.
  - destruct (packageNames st) eqn:E; [|done].
    intros [= <-]. exists []. by constructor.
  - destruct (packageNames st) as [|x l] eqn:E.
    + intros [= <-]. exists []. by constructor.
    + intros Hw. destruct (IH _ Hw) as [names Hd].
      destruct (packageNames_snoc st) as (q & n & Hq); [by rewrite E|].
      exists (n :: names). by econstructor.
Qed.

End Loop.

(** ** Termination *)

Lemma size_list_to_set_le (l : list string) :
  (size (list_to_set l : gset string) ≤ List.length l)%nat.
Proof.
  induction l as [|x l IH].
  - by rewrite list_to_set_nil, size_empty.
  - rewrite list_to_set_cons, size_union_alt, size_singleton. simpl.
    pose proof (subseteq_size (list_to_set l ∖ {[x]}) (list_to_set l : gset string)) as Hle.
    assert (list_to_set l ∖ {[x]} ⊆ (list_to_set l : gset string)) as Hsub by set_solver.
    specialize (Hle Hsub). lia.
Qed.

Section Termination.
Context `{!SetOrder}.
Variable _packages : list Package.

Lemma size_unseen_le st : (size (unseen _packages st) ≤ List.length _packages)%nat.
Proof.
  unfold unseen.
  etrans; [apply subseteq_size, subseteq_difference_l; reflexivity|].
  etrans; [apply size_list_to_set_le|]. by rewrite length_fmap.
Qed.

Lemma measure_le_turns st : (measure _packages st ≤ turns _packages st)%nat.
Proof. unfold measure, turns. pose proof (size_unseen_le st). lia. Qed.

Lemma loop_body_measure withDependencies st q n :
  packageNames st = q ++ [n] →
  S (measure _packages (loop_body _packages withDependencies st)) = measure _packages st.
Proof.
  intros Hq. unfold measure, unseen.
  rewrite (loop_body_packageNames _ _ _ q n), (loop_body_allPackageNames _ _ _ q n) by done.
  rewrite Hq, !length_app. simpl.
  set (P := pushed _packages withDependencies (allPackageNames st) n).
  set (N := list_to_set (name <$> _packages) : gset string).
  assert (list_to_set P ⊆ N ∖ allPackageNames st) as Hsub.
  { intros d Hd%elem_of_list_to_set.
    apply pushed_fresh in Hd as [Hd1 Hd2].
    apply elem_of_difference. split; [|done]. by apply elem_of_list_to_set. }
  assert (N ∖ (allPackageNames st ∪ list_to_set P) =
          (N ∖ allPackageNames st) ∖ list_to_set P) as -> by set_solver.
  rewrite size_difference by done.
  rewrite size_list_to_set by apply NoDup_pushed.
  apply subseteq_size in Hsub.
  rewrite size_list_to_set in Hsub by apply NoDup_pushed.
  lia.
Qed.

(** The loop ends within [measure st] turns. *)
Lemma while_loop_total fuel withDependencies st :
  (measure _packages st ≤ fuel)%nat →
  ∃ st', while_loop _packages fuel withDependencies st = Some st'.
Proof.
  revert st. induction fuel as [|fuel IH]; intros st Hm.
  - unfold measure in Hm. destruct (packageNames st) eqn:E; simpl in Hm; [|lia].
    exists st. simpl. by rewrite E.
  - simpl. destruct (packageNames st) as [|x l] eqn:E; [by exists st|].
    destruct (packageNames_snoc st) as (q & n & Hq); [by rewrite E|].
    apply IH. pose proof (loop_body_measure withDependencies st q n Hq). lia.
Qed.

Lemma drains_length withDependencies st names st' :
  drains _packages withDependencies st names st' →
  (List.length names ≤ measure _packages st)%nat.
Proof.
  induction 1 as [st E|st q n names st' Hq Hd IH]; simpl; [lia|].
  pose proof (loop_body_measure withDependencies st q n Hq). lia.
Qed.

Lemma drains_deterministic withDependencies st names1 st1 names2 st2 :
  drains _packages withDependencies st names1 st1 →
  drains _packages withDependencies st names2 st2 →
  names1 = names2 ∧ st1 = st2.
Proof.
  intros Hd1. revert names2 st2.
  induction Hd1 as [st E|st q n names st' Hq Hd IH]; intros names2 st2 Hd2.
  - inversion Hd2 as [|? q' n' ? ? Hq']; subst; [done|].
    rewrite E in Hq'. by destruct q'.
  - inversion Hd2 as [? E|? q' n' names' ? Hq' Hd']; subst.
    + rewrite E in Hq. by destruct q.
    + rewrite Hq in Hq'. apply app_inj_tail in Hq' as [<- <-].
      destruct (IH _ _ Hd') as [<- <-]. done.
Qed.

(** The run of the loop from [st], with the fuel [packagesDownload] gives it. *)
Lemma while_loop_turns_drains withDependencies st :
  ∃ names st',
    while_loop _packages (turns _packages st) withDependencies st = Some st' ∧
    drains _packages withDependencies st names st'.
Proof.
  destruct (while_loop_total (turns _packages st) withDependencies st)
    as [st' Hw]; [apply measure_le_turns|].
  destruct (while_loop_drains _ _ _ _ _ Hw) as [names Hd]. by exists names, st'.
Qed.

End Termination.

(** ** What a run of the loop pops and returns *)

Section Trace.
Context `{!SetOrder}.
Variable _packages : list Package.

Lemma drains_packageFilenames withDependencies st names st' :
  drains _packages withDependencies st names st' →
  packageFilenames st' = packageFilenames st ++ omap (found_filename _packages) names.
Proof.
  induction 1 as [st E|st q n names st' Hq Hd IH]; simpl; [by rewrite app_nil_r|].
  rewrite IH, (loop_body_packageFilenames _ _ _ q n Hq), <- app_assoc.
  by destruct (found_filename _packages n).
Qed.

Lemma drains_packageNames withDependencies st names st' :
  drains _packages withDependencies st names st' → packageNames st' = [].
Proof. by induction 1. Qed.

(** Without dependencies the queue is popped from its end to its start. *)
Lemma drains_false st names st' :
  drains _packages false st names st' → names = reverse (packageNames st).
Proof.
  induction 1 as [st E|st q n names st' Hq Hd IH]; [by rewrite E|].
  rewrite IH, (loop_body_packageNames _ _ _ q n Hq), pushed_false, app_nil_r.
  by rewrite Hq, reverse_snoc.
Qed.

Lemma drains_allPackageNames withDependencies st names st' :
  drains _packages withDependencies st names st' →
  allPackageNames st ⊆ allPackageNames st' ∧
  ∀ x, x ∈ allPackageNames st' → x ∈ allPackageNames st ∨ x ∈ names.
Proof.
  induction 1 as [st E|st q n names st' Hq Hd [IH1 IH2]]; [by auto|].
  rewrite (loop_body_allPackageNames _ _ _ q n Hq) in IH1, IH2.
  split; [set_solver|].
  intros x Hx. destruct (IH2 x Hx) as [Hx'|Hx']; [|by right; right].
  apply elem_of_union in Hx' as [Hx'|Hx']; [by left|].
  (* a pushed name is in the queue of the next state, hence popped later *)
  right. right.
  clear IH1 IH2 Hx. apply elem_of_list_to_set in Hx'.
  assert (x ∈ packageNames (loop_body _packages withDependencies st)) as Hin.
  { rewrite (loop_body_packageNames _ _ _ q n Hq). apply elem_of_app. by right. }
  clear Hx' Hq. induction Hd as [st' E|st' q' n' names st'' Hq' Hd' IH].
  - rewrite E in Hin. by apply elem_of_nil in Hin.
  - rewrite Hq' in Hin. apply elem_of_app in Hin as [Hin|Hin].
    + right. apply IH. rewrite (loop_body_packageNames _ _ _ q' n' Hq').
      apply elem_of_app. by left.
    + apply list_elem_of_singleton in Hin as ->. left.
Qed.

Lemma drains_queue_popped withDependencies st names st' n :
  drains _packages withDependencies st names st' → n ∈ packageNames st → n ∈ names.
Proof.
  induction 1 as [st E|st q m names st' Hq Hd IH]; intros Hin.
  - rewrite E in Hin. by apply elem_of_nil in Hin.
  - rewrite Hq in Hin. apply elem_of_app in Hin as [Hin|Hin].
    + right. apply IH. rewrite (loop_body_packageNames _ _ _ q m Hq).
      apply elem_of_app. by left.
    + apply list_elem_of_singleton in Hin as ->. left.
Qed.

(** No name is popped twice: a name is pushed only when it is not in
    [allPackageNames], and everything in the queue is. *)
Lemma drains_NoDup withDependencies st names st' :
  drains _packages withDependencies st names st' →
  NoDup (packageNames st) →
  (∀ n, n ∈ packageNames st → n ∈ allPackageNames st) →
  NoDup names ∧ ∀ n, n ∈ names → n ∈ packageNames st ∨ n ∉ allPackageNames st.
Proof.
  induction 1 as [st E|st q n names st' Hq Hd IH]; intros Hnd Hsub.
  { split; [constructor|]. by intros n ?%elem_of_nil. }
  set (P := pushed _packages withDependencies (allPackageNames st) n) in *.
  assert (packageNames (loop_body _packages withDependencies st) = q ++ P) as HqP
    by (by apply loop_body_packageNames).
  assert (allPackageNames (loop_body _packages withDependencies st)
          = allPackageNames st ∪ list_to_set P) as HsP
    by (by apply (loop_body_allPackageNames _ _ _ q n)).
  rewrite Hq in Hnd, Hsub. apply NoDup_app in Hnd as (Hndq & Hqn & _).
  destruct IH as [IHnd IHin].
  - rewrite HqP. apply NoDup_app. split_and!; [done| |apply NoDup_pushed].
    intros x Hx HxP. apply pushed_fresh in HxP as [HxP _].
    apply HxP, Hsub, elem_of_app. by left.
  - intros x. rewrite HqP, HsP, elem_of_app, elem_of_union, elem_of_list_to_set.
    intros [Hx|Hx]; [left|by right]. apply Hsub, elem_of_app. by left.
  - rewrite HqP, HsP in IHin. split.
    + constructor; [|done]. intros Hn. destruct (IHin n Hn) as [Hn'|Hn'].
      * apply elem_of_app in Hn' as [Hn'|Hn'].
        -- apply (Hqn n Hn'). left.
        -- apply pushed_fresh in Hn' as [Hn' _]. apply Hn', Hsub, elem_of_app.
           right. left.
      * apply Hn', elem_of_union. left. apply Hsub, elem_of_app. right. left.
    + intros x Hx. rewrite Hq. apply elem_of_cons in Hx as [->|Hx].
      { left. apply elem_of_app. right. left. }
      destruct (IHin x Hx) as [Hx'|Hx'].
      * apply elem_of_app in Hx' as [Hx'|Hx'].
        -- left. apply elem_of_app. by left.
        -- right. by apply pushed_fresh in Hx' as [Hx' _].
      * right. set_solver.
Qed.
End Trace.

(** ** [packagesDownload] *)

Lemma elem_of_foldl_union {A} (f : A → gset string) (l : list A) (init : gset string)
    (x : string) :
  x ∈ foldl (λ acc a, acc ∪ f a) init l ↔ x ∈ init ∨ ∃ a, a ∈ l ∧ x ∈ f a.
Proof.
  revert init. induction l as [|a l IH]; intros init; simpl.
  - split; [by left|]. intros [?|(a & Ha & _)]; [done|]. by apply elem_of_nil in Ha.
  - rewrite IH, elem_of_union. split.
    + intros [[?|?]|(b & Hb & Hx)]; [by left|right; exists a|right; exists b].
      * split; [left|done].
      * split; [by right|done].
    + intros [?|(b & Hb & Hx)]; [by left; left|].
      apply elem_of_cons in Hb as [->|Hb]; [by left; right|].
      right. by exists b.
Qed.

Section PackagesDownload.
Context `{!SetOrder}.
Variable _packages : list Package.

(** The names the loop starts with are those the requested tokens stand
    for. *)
Lemma elem_of_packageNames_new (requested : gset string) (n : string) :
  n ∈ packageNames_new _packages requested ↔
  ∃ tok, tok ∈ requested ∧ directly_matched _packages tok n.
Proof.
  unfold packageNames_new, directly_matched. cbv zeta.
  rewrite elem_of_foldl_union, elem_of_filter. split.
  - intros [[Hn Hr]|(tok & Htok & Hx)].
    + exists n. split; [done|]. by destruct (endswith n ".rpm").
    + apply elem_of_set_iter, elem_of_difference in Htok as [Htok Hlit].
      exists tok. split; [done|].
      destruct (endswith tok ".rpm") eqn:E; [|done].
      destruct Hlit. apply elem_of_filter. by rewrite E.
  - intros (tok & Htok & Hm). destruct (endswith tok ".rpm") eqn:E.
    + subst n. left. by rewrite E.
    + right. exists tok. split; [|done].
      apply elem_of_set_iter, elem_of_difference. split; [done|].
      rewrite elem_of_filter, E. by intros [[] _].
Qed.

(** [packagesDownload] always returns: its loop ends, and what it returns
    is read off the names the loop pops. *)
Lemma packagesDownload_drains (requested : gset string) (withDependencies : bool)
    (cache0 : gset string) :
  ∃ names st',
    packagesDownload_run _packages requested withDependencies cache0 = Some st' ∧
    packagesDownload _packages requested withDependencies cache0
      = Some (omap (found_filename _packages) names) ∧
    drains _packages withDependencies (initial_state _packages requested cache0) names st'.
Proof.
  destruct (while_loop_turns_drains _packages withDependencies
              (initial_state _packages requested cache0)) as (names & st' & Hw & Hd).
  exists names, st'. unfold packagesDownload, packagesDownload_run. cbv zeta.
  rewrite Hw. split_and!; [done| |done]. simpl. f_equal.
  by rewrite (drains_packageFilenames _ _ _ _ _ Hd).
Qed.
End PackagesDownload.


(** C3.  Without dependencies [packagesDownload] returns, for the names the
    requested tokens stand for (a literal file name for itself, a pattern
    for the names it matches or for itself when it matches none), the file
    names of the packages [_findPackage] selects for them, and nothing
    else: the providers of requirements are reported and never queued. *)
Theorem without_dependencies_only_matched `{!SetOrder} (_packages : list Package)
    (requested cache0 : gset string) :
  ∃ res,
    packagesDownload _packages requested false cache0 = Some res ∧
    res = omap (found_filename _packages)
               (reverse (set_iter (packageNames_new _packages requested))) ∧
    ∀ f, f ∈ res →
      ∃ tok n p,
        tok ∈ requested ∧ directly_matched _packages tok n ∧
        (_findPackage _packages n).1 = Some p ∧ filename p = f.
Proof.
  destruct (packagesDownload_drains _packages requested false cache0)
    as (names & st' & _ & Hres & Hd).
  apply drains_false in Hd. simpl in Hd. subst names.
  eexists. split_and!; [done..|].
  intros f (n & Hn & Hf)%list_elem_of_omap.
  apply elem_of_reverse, elem_of_set_iter, elem_of_packageNames_new in Hn
    as (tok & Htok & Hm).
  unfold found_filename in Hf.
  destruct (_findPackage _packages n).1 as [p|] eqn:E; simplify_eq/=.
  by exists tok, n, p.
Qed.

Lemma NoDup_omap_inj {A B} (f : A → option B) (l : list A) :
  NoDup l →
  (∀ x y, x ∈ l → y ∈ l → is_Some (f x) → f x = f y → x = y) →
  NoDup (omap f l).
Proof.
  intros Hnd. induction Hnd as [|x l Hx Hnd IH]; intros Hinj; [constructor|].
  simpl. destruct (f x) as [b|] eqn:E.
  - constructor.
    + intros (y & Hy & Hfy)%list_elem_of_omap.
      assert (x = y) as <-; [|done].
      apply Hinj; [left|by right|by rewrite E|by rewrite E, Hfy].
    + apply IH. intros y z Hy Hz. apply Hinj; by right.
  - apply IH. intros y z Hy Hz. apply Hinj; by right.
Qed.

Lemma omap_repeated {A B} (f : A → option B) (l : list A) (i j : nat) (b : B) :
  NoDup l → (i < j)%nat →
  omap f l !! i = Some b → omap f l !! j = Some b →
  ∃ x y, x ≠ y ∧ x ∈ l ∧ y ∈ l ∧ f x = Some b ∧ f y = Some b.
Proof.
  intros Hnd. revert i j. induction Hnd as [|x l Hx Hnd IH]; intros i j Hij Hi Hj.
  { simpl in Hi. by rewrite lookup_nil in Hi. }
  simpl in Hi, Hj. destruct (f x) as [b'|] eqn:E.
  - destruct j as [|j]; [lia|]. destruct i as [|i]; simplify_eq/=.
    + apply list_elem_of_lookup_2, list_elem_of_omap in Hj as (y & Hy & Hfy).
      exists x, y. split_and!; [by intros ->|left|by right|done..].
    + destruct (IH i j) as (y & z & Hne & Hy & Hz & Hfy & Hfz); [lia|done..|].
      exists y, z. split_and!; [done|by right|by right|done..].
  - destruct (IH i j) as (y & z & Hne & Hy & Hz & Hfy & Hfz); [done..|].
    exists y, z. split_and!; [done|by right|by right|done..].
Qed.

(** C5, as the code has it.  [packagesDownload] removes duplicates among the
    queued names, not among the file names.  [names] is the list of the
    names the loop pops, in the order of the pops: they are pairwise
    different and include every name the requested tokens stand for; the
    list the function returns holds, for each popped name in turn, the file
    name of the package [_findPackage] selects for it, and nothing for a
    name that matches no package.  Hence a file name that is twice in the
    list is selected by two different popped names, and the list repeats no
    file name when different popped names never select the same one. *)
Theorem result_one_filename_per_name `{!SetOrder} (_packages : list Package)
    (requested : gset string) (withDependencies : bool) (cache0 : gset string) :
  ∃ res names st',
    packagesDownload_run _packages requested withDependencies cache0 = Some st' ∧
    drains _packages withDependencies
           (initial_state _packages requested cache0) names st' ∧
    packagesDownload _packages requested withDependencies cache0 = Some res ∧
    res = packageFilenames st' ∧
    NoDup names ∧
    (∀ n, n ∈ packageNames_new _packages requested → n ∈ names) ∧
    res = omap (found_filename _packages) names ∧
    (∀ i j f, (i < j)%nat → res !! i = Some f → res !! j = Some f →
       ∃ n m, n ≠ m ∧ n ∈ names ∧ m ∈ names ∧
              found_filename _packages n = Some f ∧
              found_filename _packages m = Some f) ∧
    ((∀ n m, n ∈ names → m ∈ names → is_Some (found_filename _packages n) →
        found_filename _packages n = found_filename _packages m → n = m) →
     NoDup res).
Proof.
  destruct (packagesDownload_drains _packages requested withDependencies cache0)
    as (names & st' & Hrun & Hres & Hd).
  destruct (drains_NoDup _ _ _ _ _ Hd) as [Hnd _].
  { simpl. apply NoDup_set_iter. }
  { simpl. intros n. by rewrite elem_of_set_iter. }
  exists (omap (found_filename _packages) names), names, st'.
  split_and!; [done|done|done| |done| |done| |].
  - unfold packagesDownload in Hres. rewrite Hrun in Hres. by simplify_eq/=.
  - intros n Hn. eapply drains_queue_popped; [done|]. simpl. by apply elem_of_set_iter.
  - intros i j f. by apply omap_repeated.
  - intros Hinj. by apply NoDup_omap_inj.
Qed.

(** C8, as the code has it.  For a requirement [r] of the package whose
    provider set is not empty and has no member in [packageNames],
    [_checkPackageRequirements] picks exactly one provider of [r]: the turn
    of its loop for [r] adds to [allProviders] the provider [d] that
    [providers.pop()] gives, the first member of the provider set in the
    order the interpreter walks it, and nothing else.  The set it returns
    holds these picks, one for each such requirement, and nothing else, so
    another provider of [r] is in it only as the pick of another
    requirement.  The picks are decided by the package, the index,
    [packageNames] and that order: two runs whose set orders give the same
    [pop] on the provider sets of the package's requirements return the same
    providers. *)
Theorem provider_choice (O : SetOrder) (_packages : list Package) (package : Package)
    (packageNames : gset string) (r : string) :
  r ∈ requires package →
  providersOf _packages r ≠ ∅ →
  providersOf _packages r ∩ packageNames = ∅ →
  (∃ d,
     head (@set_iter O (providersOf _packages r)) = Some d ∧
     d ∈ providersOf _packages r ∧
     (∀ acc, (@check_requirement O _packages package packageNames acc r).1
             = acc.1 ∪ {[d]}) ∧
     d ∈ (@_checkPackageRequirements O _packages package packageNames).1 ∧
     (∀ d', d' ∈ providersOf _packages r →
        d' ∈ (@_checkPackageRequirements O _packages package packageNames).1 →
        d' = d ∨
        ∃ r', r' ≠ r ∧ r' ∈ requires package ∧
              providersOf _packages r' ∩ packageNames = ∅ ∧
              head (@set_iter O (providersOf _packages r')) = Some d')) ∧
  (∀ d', d' ∈ (@_checkPackageRequirements O _packages package packageNames).1 ↔
         ∃ r', r' ∈ requires package ∧
               providersOf _packages r' ∩ packageNames = ∅ ∧
               head (@set_iter O (providersOf _packages r')) = Some d') ∧
  (∀ O' : SetOrder,
     (∀ r', r' ∈ requires package →
        @set_pop O' (providersOf _packages r') = @set_pop O (providersOf _packages r')) →
     (@_checkPackageRequirements O' _packages package packageNames).1
     = (@_checkPackageRequirements O _packages package packageNames).1).
Proof.
  intros Hr Hne Hdisj.
  assert (∀ d', d' ∈ (@_checkPackageRequirements O _packages package packageNames).1 ↔
            ∃ r', r' ∈ requires package ∧
                  providersOf _packages r' ∩ packageNames = ∅ ∧
                  head (@set_iter O (providersOf _packages r')) = Some d') as Hall.
  { intros d'. rewrite elem_of_checkPackageRequirements.
    split; intros (r' & Hr' & Hc); exists r'; unfold chosen, set_pop in *.
    - by destruct (decide _).
    - destruct Hc as [Hc1 Hc2]. split; [done|]. by rewrite decide_True. }
  split_and!; [|done|].
  - destruct (@set_pop_is_Some O _ Hne) as (d & Hpop & Hd).
    exists d. split_and!; [done|done| | |].
    + intros acc. rewrite check_requirement_fst. unfold chosen.
      by rewrite decide_True, Hpop.
    + apply Hall. by exists r.
    + intros d' _ (r' & Hr' & Hdisj' & Hhead)%Hall.
      destruct (decide (r' = r)) as [->|Hrr].
      * left. unfold set_pop in Hpop. congruence.
      * right. by exists r'.
  - intros O' Hsame. apply set_eq. intros d.
    rewrite !elem_of_checkPackageRequirements.
    split; intros (r' & Hr' & Hc); exists r'; (split; [done|]);
      unfold chosen in *; destruct (decide _); try done;
      by rewrite <- Hc, Hsame.
Qed.

(** ** Closure of a run with dependencies *)

Section Closure.
Context `{!SetOrder}.
Variable _packages : list Package.

Lemma pushed_provider withDependencies seen n d :
  d ∈ pushed _packages withDependencies seen n →
  ∃ p r, (_findPackage _packages n).1 = Some p ∧ r ∈ requires p ∧
         d ∈ providersOf _packages r.
Proof.
  unfold pushed. destruct (_findPackage _packages n).1 as [p|];
    [|by intros ?%elem_of_nil].
  destruct withDependencies; [|by intros ?%elem_of_nil].
  intros (r & Hr & Hc)%elem_of_set_iter%elem_of_checkPackageRequirements.
  apply chosen_Some in Hc as [Hd _]. by exists p, r.
Qed.

(** A set of names that holds the queue and, with a name, the providers of
    every requirement of the package selected for it, holds whatever the
    loop pops. *)
Lemma drains_inside withDependencies st names st' (G : string → Prop) :
  (∀ n p r d, G n → (_findPackage _packages n).1 = Some p → r ∈ requires p →
              d ∈ providersOf _packages r → G d) →
  drains _packages withDependencies st names st' →
  (∀ n, n ∈ packageNames st → G n) →
  ∀ n, n ∈ names → G n.
Proof.
  intros HG. induction 1 as [st E|st q m names st' Hq Hd IH]; intros Hqueue n Hn.
  { by apply elem_of_nil in Hn. }
  assert (G m) as Hm by (apply Hqueue; rewrite Hq, elem_of_app; right; left).
  apply elem_of_cons in Hn as [->|Hn]; [done|].
  apply IH; [|done]. intros x.
  rewrite (loop_body_packageNames _ _ _ q m Hq), elem_of_app.
  intros [Hx|Hx].
  - apply Hqueue. rewrite Hq, elem_of_app. by left.
  - apply pushed_provider in Hx as (p & r & Hp & Hr & Hx). by eapply HG.
Qed.

(** With dependencies, when the loop is over every requirement of a
    selected package that some package provides has a provider in
    [allPackageNames]. *)
Lemma drains_closed st names st' n p r :
  drains _packages true st names st' →
  n ∈ names → (_findPackage _packages n).1 = Some p → r ∈ requires p →
  providersOf _packages r ≠ ∅ →
  providersOf _packages r ∩ allPackageNames st' ≠ ∅.
Proof.
  intros Hd Hn Hp Hr Hne. induction Hd as [st E|st q m names st' Hq Hd IH].
  { by apply elem_of_nil in Hn. }
  apply elem_of_cons in Hn as [->|Hn]; [|by apply IH].
  apply drains_allPackageNames in Hd as [Hsub _].
  rewrite (loop_body_allPackageNames _ _ _ q m Hq) in Hsub.
  unfold pushed in Hsub. rewrite Hp, list_to_set_set_iter in Hsub.
  pose proof (checkPackageRequirements_satisfied _packages p (allPackageNames st) r Hr Hne).
  set_solver.
Qed.

Lemma drains_names_seen withDependencies st names st' :
  drains _packages withDependencies st names st' →
  (∀ n, n ∈ packageNames st → n ∈ allPackageNames st) →
  ∀ n, n ∈ names → n ∈ allPackageNames st'.
Proof.
  induction 1 as [st E|st q m names st' Hq Hd IH]; intros Hsub n Hn.
  { by apply elem_of_nil in Hn. }
  apply elem_of_cons in Hn as [->|Hn].
  - apply drains_allPackageNames in Hd as [Hmono _]. apply Hmono.
    rewrite (loop_body_allPackageNames _ _ _ q m Hq). apply elem_of_union. left.
    apply Hsub. rewrite Hq, elem_of_app. right. left.
  - apply IH; [|done]. intros x.
    rewrite (loop_body_packageNames _ _ _ q m Hq),
      (loop_body_allPackageNames _ _ _ q m Hq), elem_of_app, elem_of_union,
      elem_of_list_to_set.
    intros [Hx|Hx]; [left|by right]. apply Hsub. rewrite Hq, elem_of_app. by left.
Qed.
End Closure.

(** ** Resolving the result again *)

Section Again.
Variable _packages : list Package.
Hypothesis Harchive : archive_filenames _packages.
Hypothesis Hsingle : single_provider _packages.

Lemma filename_endswith p : p ∈ _packages → endswith (filename p) ".rpm".
Proof using Harchive. destruct Harchive as (H1 & _ & _). rewrite Forall_forall in H1. apply H1. Qed.

Lemma name_not_endswith p : p ∈ _packages → ¬ endswith (name p) ".rpm".
Proof using Harchive. destruct Harchive as (_ & H2 & _). rewrite Forall_forall in H2. apply H2. Qed.

Lemma filename_inj p q : p ∈ _packages → q ∈ _packages → filename p = filename q → p = q.
Proof using Harchive.
  destruct Harchive as (_ & _ & Hnd). intros Hp Hq Hf.
  apply list_elem_of_lookup in Hp as [i Hi], Hq as [j Hj].
  assert (i = j) as ->; [|congruence].
  eapply NoDup_lookup; [exact Hnd| |].
  - by rewrite list_lookup_fmap, Hi.
  - rewrite list_lookup_fmap, Hj. simpl. by rewrite Hf.
Qed.

Lemma providersOf_single r d d' :
  d ∈ providersOf _packages r → d' ∈ providersOf _packages r → d = d'.
Proof using Hsingle.
  clear Harchive.
  intros (p & Hp & Hrp & <-)%elem_of_providersOf (q & Hq & Hrq & <-)%elem_of_providersOf.
  unfold single_provider in Hsingle. rewrite Forall_forall in Hsingle.
  specialize (Hsingle p Hp). rewrite Forall_forall in Hsingle.
  apply (Hsingle q Hq). set_solver.
Qed.

(** Looking up the file name of a package of the index gives that package. *)
Lemma _findPackage_filename p :
  p ∈ _packages → (_findPackage _packages (filename p)).1 = Some p.
Proof using Harchive.
  intros Hp.
  destruct (_findPackage_is_Some _packages (filename p) p) as [q Hq]; [done|by right|].
  rewrite Hq. f_equal.
  destruct (_findPackage_Some _ _ _ Hq) as [Hin [Hn|Hf]].
  - destruct (name_not_endswith q Hin). rewrite <- Hn. by apply filename_endswith.
  - symmetry. by apply filename_inj.
Qed.
End Again.

(** C4, as the code has it.  Take an index in which file names end in
    [.rpm] and are pairwise different, no package name ends in [.rpm], and no
    capability is provided under two package names.  If [packagesDownload]
    with dependencies returns the list [res1] for a request, then asked for
    the file names of [res1] it returns a list with the same set of file
    names; this holds whatever the set orders and the cache contents of the
    two runs are. *)
Theorem resolving_again_same_set (O1 O2 : SetOrder) (_packages : list Package)
    (requested cache1 cache2 : gset string) :
  archive_filenames _packages →
  single_provider _packages →
  ∃ res1 res2,
    @packagesDownload O1 _packages requested true cache1 = Some res1 ∧
    @packagesDownload O2 _packages (list_to_set res1) true cache2 = Some res2 ∧
    (list_to_set res2 : gset string) = list_to_set res1.
Proof.
  intros Harchive Hsingle.
  destruct (@packagesDownload_drains O1 _packages requested true cache1)
    as (names1 & st1 & _ & Hres1 & Hd1).
  set (res1 := omap (found_filename _packages) names1) in *.
  destruct (@packagesDownload_drains O2 _packages (list_to_set res1) true cache2)
    as (names2 & st2 & _ & Hres2 & Hd2).
  exists res1, (omap (found_filename _packages) names2). split_and!; [done..|].
  (* the names of the first run *)
  assert (∀ n, n ∈ allPackageNames st1 → n ∈ names1) as Hseen1.
  { intros n Hn. destruct (@drains_allPackageNames O1 _ _ _ _ _ Hd1) as [_ Hin].
    destruct (Hin n Hn) as [Hn'|Hn']; [|done].
    eapply (@drains_queue_popped O1); [done|]. simpl in *. by apply elem_of_set_iter. }
  (* a file name of [res1] selects the package it was taken from *)
  assert (∀ f, f ∈ res1 → ∃ m p, m ∈ names1 ∧ (_findPackage _packages m).1 = Some p ∧
             filename p = f ∧ (_findPackage _packages f).1 = Some p) as Hfile.
  { intros f (m & Hm & Hf)%list_elem_of_omap. unfold found_filename in Hf.
    destruct (_findPackage _packages m).1 as [p|] eqn:E; simplify_eq/=.
    exists m, p. split_and!; [done..|].
    apply _findPackage_filename; [done|]. by apply _findPackage_Some in E as [? _]. }
  (* those names and file names hold the providers of what they require *)
  set (G := λ n : string, n ∈ res1 ∨ n ∈ names1).
  assert (∀ n p r d, G n → (_findPackage _packages n).1 = Some p → r ∈ requires p →
            d ∈ providersOf _packages r → G d) as HG.
  { assert (∀ n p r d, n ∈ names1 → (_findPackage _packages n).1 = Some p →
              r ∈ requires p → d ∈ providersOf _packages r → G d) as Hnames.
    { intros n p r d Hn Hp Hr Hd. right.
      pose proof (@drains_closed O1 _ _ _ _ n p r Hd1 Hn Hp Hr) as Hcl.
      destruct (set_choose_L (providersOf _packages r ∩ allPackageNames st1))
        as [d' Hd']; [apply Hcl; set_solver|].
      apply elem_of_intersection in Hd' as [Hd'1 Hd'2].
      rewrite (providersOf_single _ Hsingle r d d') by done. by apply Hseen1. }
    intros n p r d [Hn|Hn] Hp Hr Hd; [|by eapply Hnames].
    destruct (Hfile n Hn) as (m & p' & Hm & Hp' & _ & Hp'').
    rewrite Hp in Hp''. simplify_eq. by eapply Hnames. }
  (* the second request stands for itself *)
  assert (∀ n, n ∈ packageNames_new _packages (list_to_set res1) ↔ n ∈ res1) as Hnew.
  { intros n. rewrite (@elem_of_packageNames_new O2). unfold directly_matched. split.
    - intros (tok & Htok%elem_of_list_to_set & Hm).
      destruct (Hfile tok Htok) as (m & p & _ & Hp & <- & _).
      apply _findPackage_Some in Hp as [Hp _].
      pose proof (filename_endswith _ Harchive p Hp) as He.
      destruct (endswith (filename p) ".rpm"); [by subst|done].
    - intros Hn. exists n. split; [by apply elem_of_list_to_set|].
      destruct (Hfile n Hn) as (m & p & _ & Hp & <- & _).
      apply _findPackage_Some in Hp as [Hp _].
      pose proof (filename_endswith _ Harchive p Hp) as He.
      by destruct (endswith (filename p) ".rpm"). }
  apply set_eq. intros f. rewrite !elem_of_list_to_set. split.
  - intros (n & Hn & Hf)%list_elem_of_omap.
    assert (G n) as [Hn'|Hn'].
    { eapply (@drains_inside O2); [exact HG|exact Hd2| |exact Hn].
      intros x Hx. left. simpl in Hx. by apply elem_of_set_iter, Hnew in Hx. }
    + destruct (Hfile n Hn') as (m & p & _ & _ & Hfp & Hp).
      unfold found_filename in Hf. rewrite Hp in Hf. by simplify_eq/=.
    + apply list_elem_of_omap. by exists n.
  - intros Hf. apply list_elem_of_omap. exists f. split.
    + eapply (@drains_queue_popped O2); [exact Hd2|]. simpl.
      by apply elem_of_set_iter, Hnew.
    + destruct (Hfile f Hf) as (m & p & _ & _ & Hfp & Hp).
      unfold found_filename. by rewrite Hp, <- Hfp.
Qed.

(** ** End to end: a package and the provider of its requirement *)

Section EndToEnd.
Context `{!SetOrder}.
Variables (tA tB : Z) (uA uB fA fB : string).

Let A : Package :=
  {| name := "A"; buildtime := tA; url := uA; filename := fA;
     provides := {["a"]}; requires := ∅ |}.
Let B : Package :=
  {| name := "B"; buildtime := tB; url := uB; filename := fB;
     provides := {["b"]}; requires := {["a"]} |}.

Variable _packages : list Package.
Hypothesis Hindex : _packages ≡ₚ [A; B].
Hypothesis HfA : fA ≠ "B".
Hypothesis HfB : fB ≠ "A".

Lemma index_cases : _packages = [A; B] ∨ _packages = [B; A].
Proof using All.
  symmetry in Hindex. by apply Permutation_length_2_inv in Hindex.
Qed.

Lemma index_NoDup : NoDup _packages.
Proof using All.
  rewrite Hindex. apply NoDup_cons. split; [|apply NoDup_singleton].
  by intros [=]%list_elem_of_singleton.
Qed.

Lemma index_elem p : p ∈ _packages ↔ p = A ∨ p = B.
Proof using All. rewrite Hindex, elem_of_cons, list_elem_of_singleton. tauto. Qed.

Lemma find_B : findByNameOrFilename _packages "B" = [B].
Proof using All.
  unfold findByNameOrFilename. rewrite (filter_unique _ _ B); [done|..].
  - apply index_NoDup.
  - apply index_elem. by right.
  - by left.
  - intros p [->| ->]%index_elem [Hn|Hf]; simplify_eq/=; done.
Qed.

Lemma find_A : findByNameOrFilename _packages "A" = [A].
Proof using All.
  unfold findByNameOrFilename. rewrite (filter_unique _ _ A); [done|..].
  - apply index_NoDup.
  - apply index_elem. by left.
  - by left.
  - intros p [->| ->]%index_elem [Hn|Hf]; simplify_eq/=; done.
Qed.

Lemma providersOf_a : providersOf _packages "a" = {["A"]}.
Proof using All.
  apply set_eq. intros d. rewrite elem_of_providersOf, elem_of_singleton. split.
  - intros (p & Hp & Hr & <-). rewrite Hindex in Hp.
    apply elem_of_cons in Hp as [->|Hp]; [done|].
    apply list_elem_of_singleton in Hp as ->. simpl in Hr. set_solver.
  - intros ->. exists A. split; [rewrite Hindex; left|]. split; [|done].
    unfold A. simpl. by apply elem_of_singleton.
Qed.

Lemma expand_B : packageNames_new _packages {["B"]} = {["B"]}.
Proof using All.
  assert (matchedpackages _packages "B" = {["B"]}) as Hm.
  { unfold matchedpackages, normalized.
    destruct index_cases as [-> | ->]; by vm_compute. }
  apply set_eq. intros n.
  assert (directly_matched _packages "B" n ↔ n ∈ ({["B"]} : gset string)) as HB.
  { unfold directly_matched, expand_token. simpl. rewrite Hm.
    by rewrite decide_False by set_solver. }
  rewrite elem_of_packageNames_new. split.
  - intros (tok & ->%elem_of_singleton & Hn). by apply HB.
  - intros Hn. exists "B". split; [by apply elem_of_singleton|]. by apply HB.
Qed.

Lemma pushed_B : pushed _packages true {["B"]} "B" = ["A"].
Proof using All.
  unfold pushed, _findPackage. rewrite find_B. simpl.
  assert ((_checkPackageRequirements _packages B {["B"]}).1 = {["A"]}) as ->;
    [|apply set_iter_singleton].
  apply set_eq. intros d.
  assert (chosen _packages {["B"]} "a" = Some "A") as Ha.
  { unfold chosen, set_pop. rewrite providersOf_a, set_iter_singleton.
    by rewrite decide_True by set_solver. }
  rewrite elem_of_checkPackageRequirements, elem_of_singleton. split.
  - intros (r & Hr & Hc). unfold B in Hr. simpl in Hr.
    apply elem_of_singleton in Hr as ->. rewrite Ha in Hc. by simplify_eq.
  - intros ->. exists "a". split; [|done]. unfold B. simpl. by apply elem_of_singleton.
Qed.

Lemma pushed_A seen : pushed _packages true seen "A" = [].
Proof using All.
  unfold pushed, _findPackage. rewrite find_A. simpl.
  assert ((_checkPackageRequirements _packages A seen).1 = ∅) as ->;
    [|apply set_iter_empty].
  apply set_eq. intros d. rewrite elem_of_checkPackageRequirements. simpl. set_solver.
Qed.

Lemma end_to_end_names cache0 names st' :
  drains _packages true (initial_state _packages {["B"]} cache0) names st' →
  names = ["B"; "A"].
Proof using All.
  intros Hd.
  inversion Hd as [? E|st0 q n names1 ? Hq Hd1]; subst; simpl in *;
    rewrite expand_B, set_iter_singleton in *; [done|].
  destruct q as [|? [|? q]]; simplify_eq/=.
  assert (packageNames (initial_state _packages {["B"]} cache0) = [] ++ ["B"]) as Hq0.
  { simpl. by rewrite expand_B, set_iter_singleton. }
  pose proof (loop_body_packageNames _packages true _ _ _ Hq0) as Hq1.
  pose proof (loop_body_allPackageNames _packages true _ _ _ Hq0) as Hs1.
  simpl in Hq1, Hs1. rewrite expand_B, pushed_B in Hq1, Hs1.
  inversion Hd1 as [? E|st1 q n names2 ? Hq Hd2]; subst; [by rewrite Hq1 in E|].
  rewrite Hq1 in Hq. destruct q as [|? [|? q]]; simplify_eq/=.
  pose proof (loop_body_packageNames _packages true _ [] "A" Hq1) as Hq2.
  rewrite pushed_A in Hq2. simpl in Hq2.
  inversion Hd2 as [? E|st2 q n names3 ? Hq Hd3]; subst; [done|].
  rewrite Hq2 in Hq. by destruct q.
Qed.
End EndToEnd.

(** C1.  The index holds exactly [A], named ["A"], providing [a] and
    requiring nothing, and [B], named ["B"], providing [b] and requiring [a];
    neither file name is the name of the other package.  Then
    [packagesDownload] for the request [{"B"}] with dependencies returns a
    list whose set of file names is that of [A] and [B] (the list is the file
    name of [B] followed by that of [A]), in whichever order the index holds
    the two packages and whatever the build times, the set order and the
    cache. *)
Theorem end_to_end_with_dependencies `{!SetOrder} (tA tB : Z) (uA uB fA fB : string)
    (_packages : list Package) (cache0 : gset string) :
  let A := {| name := "A"; buildtime := tA; url := uA; filename := fA;
              provides := {["a"]}; requires := ∅ |} in
  let B := {| name := "B"; buildtime := tB; url := uB; filename := fB;
              provides := {["b"]}; requires := {["a"]} |} in
  _packages ≡ₚ [A; B] →
  fA ≠ fB → fA ≠ "B" → fB ≠ "A" →
  ∃ res,
    packagesDownload _packages {["B"]} true cache0 = Some res ∧
    res = [fB; fA] ∧
    (list_to_set res : gset string) = {[fA; fB]}.
Proof.
  intros A B Hindex _ HfA HfB.
  destruct (packagesDownload_drains _packages {["B"]} true cache0)
    as (names & st' & _ & Hres & Hd).
  apply (end_to_end_names tA tB uA uB fA fB _packages Hindex HfA HfB) in Hd. subst names.
  assert (omap (found_filename _packages) ["B"; "A"] = [fB; fA]) as E.
  { unfold found_filename, _findPackage. simpl.
    by rewrite (find_A tA tB uA uB fA fB _packages Hindex HfA HfB),
      (find_B tA tB uA uB fA fB _packages Hindex HfA HfB). }
  rewrite E in Hres. exists [fB; fA]. split_and!; [done..|]. set_solver.
Qed.

(** ** The store: what a call changes *)




Section StoreRules.
Context {A B : Type}.
Implicit Types (base h : Store.heap).

Lemma returns_ret base h (a : A) (Q : A → Store.heap → Prop) :
  base ⊆ h → Q a h → Store.returns base (Store.ret a) h Q.
Proof. intros Hsub HQ. by exists a, h. Qed.

Lemma returns_bind base h (m : Store.M A) (f : A → Store.M B) (Q1 : A → Store.heap → Prop)
    (Q : B → Store.heap → Prop) :
  Store.returns base m h Q1 →
  (∀ a h1, base ⊆ h1 → Q1 a h1 → Store.returns base (f a) h1 Q) →
  Store.returns base (Store.bind m f) h Q.
Proof.
  intros (a & h1 & Hm & Hsub & HQ1) Hf.
  destruct (Hf a h1 Hsub HQ1) as (b & h2 & Hfa & Hsub2 & HQ).
  exists b, h2. unfold Store.bind. by rewrite Hm.
Qed.

Lemma returns_mono base h (m : Store.M A) (Q Q' : A → Store.heap → Prop) :
  Store.returns base m h Q → (∀ a h', base ⊆ h' → Q a h' → Q' a h') → Store.returns base m h Q'.
Proof. intros (a & h' & Hm & Hsub & HQ) HQQ. exists a, h'. auto. Qed.

(** A computation that keeps the objects of the store it starts in keeps
    those of any smaller store. *)
Lemma returns_call base h (m : Store.M A) (Q : A → Store.heap → Prop) :
  base ⊆ h → Store.returns h m h Q → Store.returns base m h (λ a h', h ⊆ h' ∧ Q a h').
Proof.
  intros Hsub (a & h' & Hm & Hsub' & HQ). exists a, h'.
  split_and!; [done|by etrans|done|done].
Qed.
End StoreRules.

Section StorePrimitives.
Implicit Types (base h : Store.heap).

Lemma returns_alloc base h (o : Store.obj) :
  base ⊆ h →
  Store.returns base (Store.alloc o) h (λ l h', h !! l = None ∧ h' = <[l:=o]> h).
Proof.
  intros Hsub. exists (fresh (dom h)), (<[fresh (dom h):=o]> h).
  assert (h !! fresh (dom h) = None) as Hfresh
    by apply not_elem_of_dom, is_fresh.
  split_and!; [done| |done..].
  etrans; [done|]. by apply insert_subseteq.
Qed.

Lemma returns_load base h (l : Store.loc) (o : Store.obj) :
  base ⊆ h → h !! l = Some o →
  Store.returns base (Store.load l) h (λ o' h', o' = o ∧ h' = h).
Proof. intros Hsub Hl. exists o, h. unfold Store.load. by rewrite Hl. Qed.

(** Only an object that [base] does not hold may be changed. *)
Lemma returns_store base h (l : Store.loc) (o : Store.obj) :
  base ⊆ h → base !! l = None → is_Some (h !! l) →
  Store.returns base (Store.store l o) h (λ _ h', h' = <[l:=o]> h).
Proof.
  intros Hsub Hbase [o' Hl]. exists (), (<[l:=o]> h). unfold Store.store. rewrite Hl.
  split_and!; [done| |done]. by apply insert_subseteq_r.
Qed.

Lemma returns_load_set base h l X :
  base ⊆ h → h !! l = Some (Store.SetObj X) →
  Store.returns base (Store.load_set l) h (λ X' h', X' = X ∧ h' = h).
Proof.
  intros Hsub Hl. eapply returns_bind; [by apply returns_load|].
  intros o h1 _ [-> ->]. by apply returns_ret.
Qed.

Lemma returns_load_list base h l k :
  base ⊆ h → h !! l = Some (Store.ListObj k) →
  Store.returns base (Store.load_list l) h (λ k' h', k' = k ∧ h' = h).
Proof.
  intros Hsub Hl. eapply returns_bind; [by apply returns_load|].
  intros o h1 _ [-> ->]. by apply returns_ret.
Qed.

Lemma returns_load_dict base h l d :
  base ⊆ h → h !! l = Some (Store.DictObj d) →
  Store.returns base (Store.load_dict l) h (λ d' h', d' = d ∧ h' = h).
Proof.
  intros Hsub Hl. eapply returns_bind; [by apply returns_load|].
  intros o h1 _ [-> ->]. by apply returns_ret.
Qed.

Lemma returns_load_dicts base h l k :
  base ⊆ h → h !! l = Some (Store.DictListObj k) →
  Store.returns base (Store.load_dicts l) h (λ k' h', k' = k ∧ h' = h).
Proof.
  intros Hsub Hl. eapply returns_bind; [by apply returns_load|].
  intros o h1 _ [-> ->]. by apply returns_ret.
Qed.
End StorePrimitives.


Section StoreOperations.
Context `{!SetOrder}.
Implicit Types (base h : Store.heap) (X Y : gset string) (k : list string).

Lemma returns_set_truth base h a X :
  base ⊆ h → h !! a = Some (Store.SetObj X) →
  Store.returns base (Store.set_truth a) h (λ b h', b = bool_decide (X ≠ ∅) ∧ h' = h).
Proof.
  intros Hsub Ha. eapply returns_bind; [by apply returns_load_set|].
  intros X' h1 _ [-> ->]. by apply returns_ret.
Qed.

Lemma returns_set_items base h a X :
  base ⊆ h → h !! a = Some (Store.SetObj X) →
  Store.returns base (Store.set_items a) h (λ r h', r = set_iter X ∧ h' = h).
Proof.
  intros Hsub Ha. eapply returns_bind; [by apply returns_load_set|].
  intros X' h1 _ [-> ->]. by apply returns_ret.
Qed.

Lemma returns_set_contains base h a X x :
  base ⊆ h → h !! a = Some (Store.SetObj X) →
  Store.returns base (Store.set_contains a x) h (λ b h', b = bool_decide (x ∈ X) ∧ h' = h).
Proof.
  intros Hsub Ha. eapply returns_bind; [by apply returns_load_set|].
  intros X' h1 _ [-> ->]. by apply returns_ret.
Qed.

Lemma returns_set_filter base h (test : string → bool) a X :
  base ⊆ h → h !! a = Some (Store.SetObj X) →
  Store.returns base (Store.set_filter test a) h
    (λ l h', h !! l = None ∧ h' = <[l:=Store.SetObj (filter (λ x, test x) X)]> h).
Proof.
  intros Hsub Ha. eapply returns_bind; [by apply returns_load_set|].
  intros X' h1 _ [-> ->]. by apply returns_alloc.
Qed.

Lemma returns_set_sub base h a b X Y :
  base ⊆ h → h !! a = Some (Store.SetObj X) → h !! b = Some (Store.SetObj Y) →
  Store.returns base (Store.set_sub a b) h (λ l h', h !! l = None ∧ h' = <[l:=Store.SetObj (X ∖ Y)]> h).
Proof.
  intros Hsub Ha Hb. eapply returns_bind; [by apply returns_load_set|].
  intros X' h1 _ [-> ->]. eapply returns_bind; [by apply returns_load_set|].
  intros Y' h1 _ [-> ->]. by apply returns_alloc.
Qed.

Lemma returns_set_and base h a b X Y :
  base ⊆ h → h !! a = Some (Store.SetObj X) → h !! b = Some (Store.SetObj Y) →
  Store.returns base (Store.set_and a b) h (λ l h', h !! l = None ∧ h' = <[l:=Store.SetObj (X ∩ Y)]> h).
Proof.
  intros Hsub Ha Hb. eapply returns_bind; [by apply returns_load_set|].
  intros X' h1 _ [-> ->]. eapply returns_bind; [by apply returns_load_set|].
  intros Y' h1 _ [-> ->]. by apply returns_alloc.
Qed.

Lemma returns_set_ior base h a b X Y :
  base ⊆ h → base !! a = None →
  h !! a = Some (Store.SetObj X) → h !! b = Some (Store.SetObj Y) →
  Store.returns base (Store.set_ior a b) h (λ _ h', h' = <[a:=Store.SetObj (X ∪ Y)]> h).
Proof.
  intros Hsub Hbase Ha Hb. eapply returns_bind; [by apply returns_load_set|].
  intros X' h1 _ [-> ->]. eapply returns_bind; [by apply returns_load_set|].
  intros Y' h1 _ [-> ->]. by apply returns_store.
Qed.

Lemma returns_set_add base h a X x :
  base ⊆ h → base !! a = None → h !! a = Some (Store.SetObj X) →
  Store.returns base (Store.set_add a x) h (λ _ h', h' = <[a:=Store.SetObj (X ∪ {[x]})]> h).
Proof.
  intros Hsub Hbase Ha. eapply returns_bind; [by apply returns_load_set|].
  intros X' h1 _ [-> ->]. by apply returns_store.
Qed.

Lemma returns_set_pop_ref base h a X x :
  base ⊆ h → base !! a = None → h !! a = Some (Store.SetObj X) → set_pop X = Some x →
  Store.returns base (Store.set_pop_ref a) h (λ r h', r = x ∧ h' = <[a:=Store.SetObj (X ∖ {[x]})]> h).
Proof.
  intros Hsub Hbase Ha Hx. eapply returns_bind; [by apply returns_load_set|].
  intros X' h1 _ [-> ->]. rewrite Hx.
  eapply returns_bind; [by apply returns_store|].
  intros _ h1 Hsub1 ->. by apply returns_ret.
Qed.

Lemma returns_list_of_set base h a X :
  base ⊆ h → h !! a = Some (Store.SetObj X) →
  Store.returns base (Store.list_of_set a) h
    (λ l h', h !! l = None ∧ h' = <[l:=Store.ListObj (set_iter X)]> h).
Proof.
  intros Hsub Ha. eapply returns_bind; [by apply returns_load_set|].
  intros X' h1 _ [-> ->]. by apply returns_alloc.
Qed.

Lemma returns_set_of_list base h a k :
  base ⊆ h → h !! a = Some (Store.ListObj k) →
  Store.returns base (Store.set_of_list a) h
    (λ l h', h !! l = None ∧ h' = <[l:=Store.SetObj (list_to_set k)]> h).
Proof.
  intros Hsub Ha. eapply returns_bind; [by apply returns_load_list|].
  intros k' h1 _ [-> ->]. by apply returns_alloc.
Qed.

Lemma returns_list_pop_ref base h a k x :
  base ⊆ h → base !! a = None → h !! a = Some (Store.ListObj (k ++ [x])) →
  Store.returns base (Store.list_pop_ref a) h (λ r h', r = x ∧ h' = <[a:=Store.ListObj k]> h).
Proof.
  intros Hsub Hbase Ha. eapply returns_bind; [by apply returns_load_list|].
  intros k' h1 _ [-> ->]. rewrite list_pop_snoc.
  eapply returns_bind; [by apply returns_store|].
  intros _ h1 Hsub1 ->. by apply returns_ret.
Qed.

Lemma returns_list_extend base h a b k X :
  base ⊆ h → base !! a = None →
  h !! a = Some (Store.ListObj k) → h !! b = Some (Store.SetObj X) →
  Store.returns base (Store.list_extend a b) h (λ _ h', h' = <[a:=Store.ListObj (k ++ set_iter X)]> h).
Proof.
  intros Hsub Hbase Ha Hb. eapply returns_bind; [by apply returns_load_list|].
  intros k' h1 _ [-> ->]. eapply returns_bind; [by apply returns_load_set|].
  intros Y' h1 _ [-> ->]. by apply returns_store.
Qed.

Lemma returns_list_append base h a k x :
  base ⊆ h → base !! a = None → h !! a = Some (Store.ListObj k) →
  Store.returns base (Store.list_append a x) h (λ _ h', h' = <[a:=Store.ListObj (k ++ [x])]> h).
Proof.
  intros Hsub Hbase Ha. eapply returns_bind; [by apply returns_load_list|].
  intros k' h1 _ [-> ->]. by apply returns_store.
Qed.
End StoreOperations.


Section StoreIndex.
Implicit Types (base h : Store.heap).

Lemma holds_package_mono h h' l p :
  h ⊆ h' → Store.holds_package h l p → Store.holds_package h' l p.
Proof.
  intros Hsub (d & Hl & Hn & Ht & Hu & Hf & Hp & Hr).
  exists d. split_and!; try done; by eapply lookup_weaken.
Qed.

Lemma holds_index_mono h h' _packages ps :
  h ⊆ h' → Store.holds_index h _packages ps → Store.holds_index h' _packages ps.
Proof.
  intros Hsub (ls & Hl & Hall). exists ls. split; [by eapply lookup_weaken|].
  eapply Forall2_impl; [done|]. intros l p. by apply holds_package_mono.
Qed.

Lemma Forall2_elem_of_zip {A B} (R : A → B → Prop) (l : list A) (k : list B) x y :
  Forall2 R l k → (x, y) ∈ zip l k → R x y.
Proof.
  induction 1 as [|a b l k HR Hall IH]; simpl; [by intros ?%elem_of_nil|].
  intros [[= -> ->]|Hin]%elem_of_cons; [done|by apply IH].
Qed.

Lemma fmap_filter_zip {A} (g : Package → A) (P : Package → Prop)
    `{!∀ p, Decision (P p)} (testp : Package → bool) (ls : list Store.loc)
    (ps : list Package) :
  List.length ls = List.length ps →
  (∀ p, testp p ↔ P p) →
  (λ lp : Store.loc * Package, g lp.2) <$> filter (λ lp, testp lp.2) (zip ls ps)
  = g <$> filter P ps.
Proof.
  intros Hlen Htest. revert ps Hlen.
  induction ls as [|l ls IH]; intros [|p ps] Hlen; simplify_eq/=; [done|].
  rewrite !filter_cons. simpl.
  destruct (decide (testp p)) as [Ht|Ht], (decide (P p)) as [HP|HP];
    simpl; rewrite ?IH by done; try done.
  - by apply Htest in Ht.
  - by apply Htest in HP.
Qed.

(** The comprehension over the dicts of the index selects what the
    filter over the packages selects. *)
Lemma returns_select {A} base h (ls : list Store.loc) (ps : list Package)
    (test : Store.dict → Store.M bool) (f : Store.loc → Store.dict → A)
    (testp : Package → bool) (fp : Store.loc → Package → A) :
  base ⊆ h →
  Forall2 (Store.holds_package h) ls ps →
  (∀ l p d, h !! l = Some (Store.DictObj d) → Store.holds_package h l p →
     Store.returns base (test d) h (λ b h', b = testp p ∧ h' = h) ∧ f l d = fp l p) →
  Store.returns base (Store.select ls test f) h
    (λ r h', h' = h ∧
       r = (λ lp, fp lp.1 lp.2) <$> filter (λ lp, testp lp.2) (zip ls ps)).
Proof.
  intros Hsub Hall Htest. induction Hall as [|l p ls ps Hp Hall IH]; simpl.
  { by apply returns_ret. }
  destruct Hp as (d & Hl & Hrest).
  destruct (Htest l p d Hl) as [Ht Hf]; [by exists d|].
  eapply returns_bind; [by apply returns_load_dict|].
  intros d' h1 _ [-> ->].
  eapply returns_bind; [exact Ht|]. intros b h1 _ [-> ->].
  eapply returns_bind; [exact IH|]. intros r h1 _ [-> ->].
  apply returns_ret; [done|]. split; [done|].
  rewrite filter_cons. simpl. destruct (testp p); simpl; by rewrite ?Hf.
Qed.
End StoreIndex.

Lemma insert_desc_fmap {A B} (key1 : A → Z) (key2 : B → Z) (g : A → B) (x : A)
    (l : list A) :
  (∀ y, key2 (g y) = key1 y) →
  insert_desc key2 (g x) (g <$> l) = g <$> insert_desc key1 x l.
Proof.
  intros Hkey. induction l as [|y l IH]; simpl; [done|].
  rewrite !Hkey. destruct (key1 y <=? key1 x); [done|].
  rewrite fmap_cons. f_equal. exact IH.
Qed.

Lemma sorted_reverse_fmap {A B} (key1 : A → Z) (key2 : B → Z) (g : A → B) (l : list A) :
  (∀ y, key2 (g y) = key1 y) →
  sorted_reverse key2 (g <$> l) = g <$> sorted_reverse key1 l.
Proof.
  intros Hkey. induction l as [|x l IH]; [done|].
  rewrite fmap_cons.
  change (sorted_reverse key2 (g x :: (g <$> l)))
    with (insert_desc key2 (g x) (sorted_reverse key2 (g <$> l))).
  change (sorted_reverse key1 (x :: l))
    with (insert_desc key1 x (sorted_reverse key1 l)).
  rewrite IH. by apply insert_desc_fmap.
Qed.

Section StoreFindPackage.
Context `{!SetOrder}.
Variable _packages : Store.loc.

(** [_findPackage] changes no object that exists when it is called, and
    Store.returns the Store.dict of the package the model selects. *)
Lemma returns_findPackage h ps packageName :
  Store.holds_index h _packages ps →
  Store.returns h (Store._findPackage _packages packageName) h
    (λ r h',
       match r, (_findPackage ps packageName).1 with
       | Some l, Some p => Store.holds_package h l p
       | None, None => True
       | _, _ => False
       end).
Proof.
  intros (ls & Hl & Hall). unfold Store._findPackage.
  eapply returns_bind; [by apply returns_load_dicts|]. intros ls' h1 _ [-> ->].
  eapply returns_bind.
  { apply (returns_select h h ls ps _ _
             (λ p, bool_decide (name_or_filename packageName p))
             (λ l p, (l, buildtime p))); [done..|].
    intros l p d Hd (d' & Hd' & Hn & Ht & _ & Hf & _). simplify_eq. split.
    - apply returns_ret; [done|]. split; [|done].
      unfold name_or_filename. by rewrite Hn, Hf.
    - by rewrite Ht. }
  intros matching h1 _ [-> ->].
  set (zs := filter (λ lp : Store.loc * Package,
               bool_decide (name_or_filename packageName lp.2)) (zip ls ps)).
  eapply returns_bind; [by apply returns_alloc|]. intros l h1 Hsub1 [Hfresh ->].
  eapply returns_bind.
  { apply returns_load_dicts; [done|]. apply lookup_insert_eq. }
  intros sorted h1 _ [-> ->]. apply returns_ret; [done|].
  rewrite (sorted_reverse_fmap (λ lp : Store.loc * Package, buildtime lp.2)) by done.
  rewrite <- list_fmap_compose.
  unfold _findPackage, findByNameOrFilename.
  assert (filter (name_or_filename packageName) ps = zs.*2) as ->.
  { symmetry. unfold zs.
    rewrite <- (list_fmap_id (filter (name_or_filename packageName) ps)).
    exact (fmap_filter_zip id (name_or_filename packageName)
             (λ p, bool_decide (name_or_filename packageName p)) ls ps
             (Forall2_length _ _ _ Hall) (λ p, bool_decide_spec _)). }
  rewrite (sorted_reverse_fmap (λ lp : Store.loc * Package, buildtime lp.2)) by done.
  destruct (sorted_reverse _ zs) as [|[l0 p0] rest] eqn:E; simpl; [done|].
  eapply Forall2_elem_of_zip; [exact Hall|].
  assert ((l0, p0) ∈ zs) as Hin.
  { rewrite <- (sorted_reverse_perm (λ lp : Store.loc * Package, buildtime lp.2)), E. left. }
  unfold zs in Hin. by apply list_elem_of_filter in Hin as [_ Hin].
Qed.
End StoreFindPackage.

(** [h !! l = Some o] through a chain of updates *)
Ltac heap_ne :=
  first [ done | by apply not_eq_sym | intros ->; congruence ].

Ltac heap_lookup :=
  repeat first
    [ apply lookup_insert_eq
    | rewrite lookup_insert_ne by heap_ne ];
  first [ done | by eapply lookup_weaken ].

Section StoreCheckRequirements.
Context `{!SetOrder}.
Variable _packages : Store.loc.

Lemma foldl_check_requirement_fst ps p X (l : list string) acc :
  (foldl (check_requirement ps p X) acc l).1 = foldl (add_chosen ps X) acc.1 l.
Proof.
  revert acc. induction l as [|r l IH]; intros acc; simpl; [done|].
  by rewrite IH, check_requirement_fst.
Qed.

Lemma returns_check_requirement base h ps X allProviders packageNames acc r :
  base ⊆ h →
  Store.holds_index base _packages ps →
  base !! packageNames = Some (Store.SetObj X) →
  base !! allProviders = None →
  h !! allProviders = Some (Store.SetObj acc) →
  Store.returns base (Store.check_requirement _packages allProviders packageNames r)
    h
    (λ _ h', h' !! allProviders = Some (Store.SetObj (add_chosen ps X acc r))).
Proof.
  intros Hsub Hindex HX Hbase Hacc.
  destruct (holds_index_mono _ _ _ _ Hsub Hindex) as (ls & Hl & Hall).
  pose proof (lookup_weaken _ _ _ _ HX Hsub) as HX'.
  eapply returns_bind; [by apply returns_load_dicts|]. intros ? h1 _ [-> ->].
  eapply returns_bind.
  { apply (returns_select base h ls ps _ _
             (λ p, bool_decide (r ∈ provides p)) (λ _ p, name p)); [done..|].
    intros l p d Hd (d' & Hd' & Hn & _ & _ & _ & Hp & _). simplify_eq.
    split; [by apply returns_set_contains|done]. }
  intros names h1 _ [-> ->]. cbv beta.
  match goal with |- context [list_to_set ?l] =>
    assert (l = name <$> filter (λ p, r ∈ provides p) ps) as ->
      by exact (fmap_filter_zip name (λ p, r ∈ provides p)
                  (λ p, bool_decide (r ∈ provides p)) ls ps
                  (Forall2_length _ _ _ Hall) (λ p, bool_decide_spec _))
  end.
  fold (providersOf ps r). set (P := providersOf ps r).
  eapply returns_bind; [by apply returns_alloc|]. intros lp h1 Hsub1 [Hlp ->].
  assert (lp ≠ allProviders) as Hne1 by (intros ->; congruence).
  assert (lp ≠ packageNames) as Hne2 by (intros ->; congruence).
  eapply returns_bind.
  { apply (returns_set_and _ _ lp packageNames P X); [done|heap_lookup..]. }
  intros lc h2 Hsub2 [Hlc ->].
  assert (lc ≠ lp) as Hne3 by (intros ->; by rewrite lookup_insert_eq in Hlc).
  assert (lc ≠ allProviders) as Hne4.
  { intros ->. by rewrite lookup_insert_ne, Hacc in Hlc. }
  eapply returns_bind.
  { apply (returns_set_truth _ _ lc (P ∩ X)); [done|heap_lookup]. }
  intros b h3 _ [-> ->].
  assert (base !! lp = None) as Hbase_lp.
  { destruct (base !! lp) eqn:E; [|done]. by rewrite (lookup_weaken _ _ _ _ E Hsub) in Hlp. }
  unfold add_chosen, chosen. fold P.
  case_bool_decide as Hcommon; simpl.
  { apply returns_ret; [done|]. rewrite decide_False by done. heap_lookup. }
  rewrite decide_True by done.
  eapply returns_bind.
  { apply (returns_set_truth _ _ lp P); [done|heap_lookup]. }
  intros b h3 _ [-> ->]. case_bool_decide as Hsome; simpl.
  - destruct (set_pop_is_Some P Hsome) as (x & Hpop & _). rewrite Hpop.
    eapply returns_bind.
    { apply (returns_set_pop_ref _ _ lp P x); [done..|heap_lookup|done]. }
    intros ? h3 Hsub3 [-> ->].
    eapply returns_mono.
    { apply (returns_set_add _ _ allProviders acc x); [done..|heap_lookup]. }
    intros _ h3 _ ->. heap_lookup.
  - assert (set_pop P = None) as -> by by apply set_pop_None.
    apply returns_ret; [done|]. heap_lookup.
Qed.

Lemma returns_for_each_requirement base ps X allProviders packageNames
    (reqs : list string) :
  Store.holds_index base _packages ps →
  base !! packageNames = Some (Store.SetObj X) →
  base !! allProviders = None →
  ∀ h acc,
    base ⊆ h →
    h !! allProviders = Some (Store.SetObj acc) →
    Store.returns base
      (Store.for_each reqs (Store.check_requirement _packages allProviders packageNames))
      h
      (λ _ h', h' !! allProviders = Some (Store.SetObj (foldl (add_chosen ps X) acc reqs))).
Proof.
  intros Hindex HX Hbase. induction reqs as [|r reqs IH]; intros h acc Hsub Hacc; simpl.
  { by apply returns_ret. }
  eapply returns_bind; [by eapply returns_check_requirement|].
  intros [] h1 Hsub1 Hacc1. by apply IH.
Qed.

(** [_checkPackageRequirements] changes no object that exists when it is
    called, and Store.returns a new set that holds the providers the model
    computes. *)
Lemma returns_checkPackageRequirements h ps package p packageNames X :
  Store.holds_index h _packages ps →
  Store.holds_package h package p →
  h !! packageNames = Some (Store.SetObj X) →
  Store.returns h (Store._checkPackageRequirements _packages package packageNames) h
    (λ l h', h !! l = None ∧
             h' !! l = Some (Store.SetObj (_checkPackageRequirements ps p X).1)).
Proof.
  intros Hindex (d & Hd & _ & _ & _ & _ & _ & Hreq) HX.
  unfold Store._checkPackageRequirements.
  eapply returns_bind; [by apply returns_alloc|]. intros la h1 Hsub1 [Hla ->].
  eapply returns_bind.
  { apply (returns_load_dict _ _ package d); [done|heap_lookup]. }
  intros ? h1 _ [-> ->].
  eapply returns_bind.
  { apply (returns_set_items _ _ _ (requires p)); [done|heap_lookup]. }
  intros ? h1 _ [-> ->].
  eapply returns_bind.
  { eapply (returns_for_each_requirement h ps X la packageNames); [done..|].
    apply lookup_insert_eq. }
  intros [] h1 Hsub2 Hacc. apply returns_ret; [done|]. split; [done|].
  unfold _checkPackageRequirements.
  by rewrite foldl_check_requirement_fst.
Qed.
End StoreCheckRequirements.

Section StoreLoop.
Context `{!SetOrder}.
Variable _packages : Store.loc.
Variables (base : Store.heap) (ps : list Package).
Variables (names_ref seen_ref files_ref : Store.loc).
Hypothesis Hindex : Store.holds_index base _packages ps.
Hypothesis Hq : base !! names_ref = None.
Hypothesis Hs : base !! seen_ref = None.
Hypothesis Hf : base !! files_ref = None.
Hypothesis Hqf : names_ref ≠ files_ref.

(** One turn of the loop changes the three objects of the loop as the
    model says, and no object of [base]. *)
Lemma returns_loop_body withDependencies h q n seen fns :
  base ⊆ h →
  h !! names_ref = Some (Store.ListObj (q ++ [n])) →
  h !! seen_ref = Some (Store.SetObj seen) →
  h !! files_ref = Some (Store.ListObj fns) →
  Store.returns base
    (Store.loop_body _packages withDependencies
       names_ref seen_ref files_ref) h
    (λ _ h',
       h' !! names_ref = Some (Store.ListObj (q ++ pushed ps withDependencies seen n)) ∧
       h' !! seen_ref
         = Some (Store.SetObj (seen ∪ list_to_set (pushed ps withDependencies seen n))) ∧
       h' !! files_ref
         = Some (Store.ListObj (fns ++ option_list (found_filename ps n)))).
Proof using All.
  intros Hsub Hhq Hhs Hhf. unfold Store.loop_body.
  assert (names_ref ≠ seen_ref) as Hqs by (intros ->; congruence).
  assert (seen_ref ≠ files_ref) as Hsf by (intros ->; congruence).
  eapply returns_bind; [by apply returns_list_pop_ref|].
  intros ? h1 Hsub1 [-> ->].
  eapply returns_bind.
  { apply returns_call; [done|]. apply (returns_findPackage _packages _ ps n).
    exact (holds_index_mono _ _ _ _ Hsub1 Hindex). }
  intros r h2 Hsub2 [Hmono2 Hr].
  unfold pushed, found_filename.
  destruct r as [l|], (_findPackage ps n).1 as [p|]; try done; simpl.
  2:{ apply returns_ret; [done|]. rewrite !app_nil_r, union_empty_r_L.
      split_and!; (eapply lookup_weaken; [|exact Hmono2]); heap_lookup. }
  assert (h2 !! names_ref = Some (Store.ListObj q)) as Hq2
    by (eapply lookup_weaken; [|exact Hmono2]; heap_lookup).
  assert (h2 !! seen_ref = Some (Store.SetObj seen)) as Hs2
    by (eapply lookup_weaken; [|exact Hmono2]; heap_lookup).
  assert (h2 !! files_ref = Some (Store.ListObj fns)) as Hf2
    by (eapply lookup_weaken; [|exact Hmono2]; heap_lookup).
  pose proof (holds_package_mono _ _ _ _ Hmono2 Hr) as Hp2.
  eapply returns_bind.
  { apply returns_call; [done|].
    apply (returns_checkPackageRequirements _packages _ ps l p seen_ref seen);
      [|done..].
    exact (holds_index_mono _ _ _ _ Hsub2 Hindex). }
  intros ld h3 Hsub3 (Hmono3 & Hld & HD).
  set (D := (_checkPackageRequirements ps p seen).1) in *.
  assert (h3 !! names_ref = Some (Store.ListObj q)) as Hq3 by by eapply lookup_weaken.
  assert (h3 !! seen_ref = Some (Store.SetObj seen)) as Hs3 by by eapply lookup_weaken.
  assert (h3 !! files_ref = Some (Store.ListObj fns)) as Hf3 by by eapply lookup_weaken.
  destruct (holds_package_mono _ _ _ _ Hmono3 Hp2)
    as (d & Hd & _ & _ & _ & Hfile & _ & _).
  assert (l ≠ names_ref) as Hlq by (intros ->; congruence).
  assert (l ≠ seen_ref) as Hls by (intros ->; congruence).
  assert (l ≠ files_ref) as Hlf by (intros ->; congruence).
  eapply returns_bind; [by apply (returns_set_truth _ _ ld D)|].
  intros ? h4 _ [-> ->].
  eapply returns_bind.
  { instantiate (1 := λ _ h',
      h' !! names_ref
        = Some (Store.ListObj (q ++ if withDependencies then set_iter D else [])) ∧
      h' !! seen_ref
        = Some (Store.SetObj (seen ∪ list_to_set (if withDependencies then set_iter D else []))) ∧
      h' !! files_ref = Some (Store.ListObj fns) ∧
      h' !! l = Some (Store.DictObj d)).
    destruct withDependencies; simpl.
    2:{ apply returns_ret; [done|]. by rewrite app_nil_r, union_empty_r_L. }
    case_bool_decide as HDne; simpl.
    2:{ apply returns_ret; [done|].
        by rewrite HDne, set_iter_empty, app_nil_r, list_to_set_nil, union_empty_r_L. }
    assert (ld ≠ names_ref) as Hdq by (intros ->; congruence).
    assert (ld ≠ seen_ref) as Hds by (intros ->; congruence).
    eapply returns_bind.
    { by apply (returns_list_extend _ _ names_ref ld q D). }
    intros [] h4 Hsub4 ->.
    eapply returns_mono.
    { apply (returns_set_ior _ _ seen_ref ld seen D); [done..|heap_lookup|heap_lookup]. }
    intros [] h4 _ ->. rewrite list_to_set_set_iter.
    split_and!; heap_lookup. }
  intros [] h4 Hsub4 (Hq4 & Hs4 & Hf4 & Hd4).
  eapply returns_bind; [by apply returns_load_dict|]. intros ? h5 _ [-> ->].
  eapply returns_mono; [by apply returns_list_append|].
  intros [] h5 _ ->. rewrite Hfile. split_and!; heap_lookup.
Qed.

Lemma returns_while_loop withDependencies fuel :
  ∀ h st st',
    base ⊆ h →
    h !! names_ref = Some (Store.ListObj (packageNames st)) →
    h !! seen_ref = Some (Store.SetObj (allPackageNames st)) →
    h !! files_ref = Some (Store.ListObj (packageFilenames st)) →
    while_loop ps fuel withDependencies st = Some st' →
    Store.returns base
      (Store.while_loop _packages fuel withDependencies
         names_ref seen_ref files_ref) h
      (λ _ h',
         h' !! files_ref = Some (Store.ListObj (packageFilenames st'))).
Proof using All.
  induction fuel as [|fuel IH]; intros h st st' Hsub Hhq Hhs Hhf Hw; simpl in *.
  - eapply returns_bind; [by apply returns_load_list|]. intros ? h1 _ [-> ->].
    destruct (packageNames st); [|done]. simplify_eq.
    by apply returns_ret.
  - eapply returns_bind; [by apply returns_load_list|]. intros ? h1 _ [-> ->].
    destruct (packageNames st) as [|x k] eqn:E.
    { simplify_eq. by apply returns_ret. }
    destruct (packageNames_snoc st) as (q & n & Hsnoc); [by rewrite E|].
    rewrite <- E, Hsnoc in Hhq.
    eapply returns_bind; [by eapply returns_loop_body|].
    intros [] h1 Hsub1 (Hq1 & Hs1 & Hf1).
    eapply (IH h1 (loop_body ps withDependencies st)); [done|..|done].
    + by rewrite (loop_body_packageNames ps withDependencies st q n).
    + by rewrite (loop_body_allPackageNames ps withDependencies st q n).
    + by rewrite (loop_body_packageFilenames ps withDependencies st q n).
Qed.
End StoreLoop.

Section StoreDownload.
Context `{!SetOrder}.
Variable _packages : Store.loc.

Lemma returns_expand_token base h ps new_ref acc tok :
  base ⊆ h →
  Store.holds_index base _packages ps →
  base !! new_ref = None →
  h !! new_ref = Some (Store.SetObj acc) →
  Store.returns base (Store.expand_token _packages new_ref tok) h
    (λ _ h', h' !! new_ref = Some (Store.SetObj (acc ∪ expand_token ps tok))).
Proof.
  intros Hsub Hindex Hbase Hacc. unfold Store.expand_token.
  destruct (holds_index_mono _ _ _ _ Hsub Hindex) as (ls & Hl & Hall).
  eapply returns_bind; [by apply returns_load_dicts|]. intros ? h1 _ [-> ->].
  eapply returns_bind.
  { apply (returns_select base h ls ps _ _
             (λ p, fnmatchcase (normalized p) tok) (λ _ p, name p)); [done..|].
    intros l p d Hd (d' & Hd' & Hn & _). simplify_eq. split; [|done].
    apply returns_ret; [done|]. unfold normalized. by rewrite Hn. }
  intros names h1 _ [-> ->]. cbv beta.
  match goal with |- context [list_to_set ?l] =>
    assert (l = name <$> filter (λ p, fnmatchcase (normalized p) tok) ps) as ->
      by exact (fmap_filter_zip name (λ p, fnmatchcase (normalized p) tok)
                  (λ p, fnmatchcase (normalized p) tok) ls ps
                  (Forall2_length _ _ _ Hall) (λ p, reflexivity _))
  end.
  fold (matchedpackages ps tok). set (m := matchedpackages ps tok).
  eapply returns_bind; [by apply returns_alloc|]. intros lm h1 Hsub1 [Hlm ->].
  assert (lm ≠ new_ref) as Hne by (intros ->; congruence).
  eapply returns_bind.
  { apply (returns_set_truth _ _ lm m); [done|heap_lookup]. }
  intros ? h2 _ [-> ->].
  unfold expand_token. fold m. case_bool_decide as Hm; simpl.
  - rewrite decide_False by done.
    eapply returns_bind.
    { by apply (returns_ret _ _ _ (λ a h', a = lm ∧ h' = <[lm:=Store.SetObj m]> h)). }
    intros ? h2 _ [-> ->].
    eapply returns_mono.
    { apply (returns_set_ior _ _ new_ref lm acc m); [done..|heap_lookup|heap_lookup]. }
    intros [] h2 _ ->. heap_lookup.
  - rewrite decide_True by done.
    eapply returns_bind; [by apply returns_alloc|]. intros lo h2 Hsub2 [Hlo ->].
    assert (lo ≠ new_ref) as Hne2.
    { intros ->. by rewrite lookup_insert_ne, Hacc in Hlo. }
    eapply returns_mono.
    { apply (returns_set_ior _ _ new_ref lo acc {[tok]}); [done..|heap_lookup|heap_lookup]. }
    intros [] h2 _ ->. heap_lookup.
Qed.

Lemma returns_for_each_token base ps new_ref (toks : list string) :
  Store.holds_index base _packages ps →
  base !! new_ref = None →
  ∀ h acc,
    base ⊆ h →
    h !! new_ref = Some (Store.SetObj acc) →
    Store.returns base (Store.for_each toks (Store.expand_token _packages new_ref)) h
      (λ _ h', h' !! new_ref
               = Some (Store.SetObj (foldl (λ acc t, acc ∪ expand_token ps t) acc toks))).
Proof.
  intros Hindex Hbase. induction toks as [|t toks IH]; intros h acc Hsub Hacc; simpl.
  { by apply returns_ret. }
  eapply returns_bind; [by eapply returns_expand_token|].
  intros [] h1 Hsub1 Hacc1. by apply IH.
Qed.

Lemma lookup_weaken_None_base (base h : Store.heap) l :
  base ⊆ h → h !! l = None → base !! l = None.
Proof.
  intros Hsub Hl. destruct (base !! l) eqn:E; [|done].
  by rewrite (lookup_weaken _ _ _ _ E Hsub) in Hl.
Qed.

(** [packagesDownload] changes no object that exists when it is called,
    and returns a new list that holds what the model computes. *)
Lemma returns_packagesDownload h ps request requested withDependencies cache0 :
  Store.holds_index h _packages ps →
  h !! request = Some (Store.SetObj requested) →
  Store.returns h (Store.packagesDownload _packages request withDependencies) h
    (λ l h', h !! l = None ∧
             ∃ res, packagesDownload ps requested withDependencies cache0 = Some res ∧
                    h' !! l = Some (Store.ListObj res)).
Proof.
  intros Hindex Hreq. unfold Store.packagesDownload.
  eapply returns_bind; [by apply returns_set_filter|]. intros l1 h1 Hsub1 [Hl1 ->].
  assert (l1 ≠ request) as Hne1 by (intros ->; congruence).
  eapply returns_bind.
  { eapply (returns_set_sub _ _ request l1); [done|heap_lookup..]. }
  intros l2 h2 Hsub2 [Hl2 ->].
  eapply returns_bind.
  { eapply returns_set_items; [done|heap_lookup]. }
  intros ? h3 _ [-> ->].
  eapply returns_bind.
  { eapply (returns_for_each_token h ps l1); [done..|].
    rewrite lookup_insert_ne; [apply lookup_insert_eq|].
    intros ->. by rewrite lookup_insert_eq in Hl2. }
  intros [] h3 Hsub3 Hnew. fold (packageNames_new ps requested) in Hnew.
  set (new := packageNames_new ps requested) in *.
  eapply returns_bind; [by eapply returns_list_of_set|]. intros lq h4 Hsub4 [Hlq ->].
  eapply returns_bind.
  { eapply returns_set_of_list; [done|apply lookup_insert_eq]. }
  intros ls h5 Hsub5 [Hls ->]. rewrite list_to_set_set_iter in Hsub5 |- *.
  eapply returns_bind; [by eapply returns_alloc|]. intros lf h6 Hsub6 [Hlf ->].
  assert (ls ≠ lq) as Hne2 by (intros ->; by rewrite lookup_insert_eq in Hls).
  assert (lf ≠ ls) as Hne3 by (intros ->; by rewrite lookup_insert_eq in Hlf).
  assert (lf ≠ lq) as Hne4.
  { intros ->. by rewrite lookup_insert_ne, lookup_insert_eq in Hlf. }
  eapply returns_bind.
  { eapply returns_load_list; [done|heap_lookup]. }
  intros ? h7 _ [-> ->].
  destruct (holds_index_mono _ _ _ _ Hsub6 Hindex) as (lps & Hlps & Hall).
  eapply returns_bind.
  { eapply returns_load_dicts; [done|exact Hlps]. }
  intros ? h7 _ [-> ->].
  set (st := initial_state ps requested cache0).
  destruct (while_loop_turns_drains ps withDependencies st) as (names & st' & Hw & _).
  assert (h !! lq = None) as Hbq.
  { eapply lookup_weaken_None_base; [exact Hsub3|done]. }
  assert (h !! ls = None) as Hbs.
  { eapply lookup_weaken_None_base; [exact Hsub4|done]. }
  assert (h !! lf = None) as Hbf.
  { eapply lookup_weaken_None_base; [exact Hsub5|done]. }
  eapply returns_bind.
  { eapply (returns_while_loop _packages h ps lq ls lf Hindex Hbq Hbs Hbf
              (not_eq_sym Hne4) withDependencies _ _ st st'); [done| | | |].
    - heap_lookup.
    - heap_lookup.
    - heap_lookup.
    - unfold turns in Hw. simpl in Hw. fold new in Hw.
      by rewrite (Forall2_length _ _ _ Hall). }
  intros [] h7 Hsub7 Hres. apply returns_ret; [done|]. split; [done|].
  exists (packageFilenames st'). split; [|done].
  unfold packagesDownload, packagesDownload_run. cbv zeta. fold st. by rewrite Hw.
Qed.
End StoreDownload.

(** C10.  Let the store hold the index at [_packages].  A call of
    [packagesDownload], [_findPackage] or [_checkPackageRequirements] returns
    and ends in a store [h'] with [h ⊆ h']: every reference of the store [h]
    of the call still holds the object it held.  So the requested set, the
    list [_packages], every package dict and its [provides] and [requires]
    sets, and the set passed as [packageNames] are unchanged; what the calls
    change are objects they have created.  The list [packagesDownload]
    returns and the set [_checkPackageRequirements] returns are new objects,
    and they hold what the functions of the model compute. *)
Theorem resolution_changes_no_input `{!SetOrder} (h : Store.heap) (_packages : Store.loc)
    (ps : list Package) :
  Store.holds_index h _packages ps →
  (∀ request requested withDependencies,
     h !! request = Some (Store.SetObj requested) →
     ∃ l h',
       Store.packagesDownload _packages request withDependencies h = Some (l, h') ∧
       h ⊆ h' ∧
       h' !! request = Some (Store.SetObj requested) ∧
       Store.holds_index h' _packages ps ∧
       h !! l = None ∧
       ∀ cache0, ∃ res,
         packagesDownload ps requested withDependencies cache0 = Some res ∧
         h' !! l = Some (Store.ListObj res)) ∧
  (∀ packageName,
     ∃ r h',
       Store._findPackage _packages packageName h = Some (r, h') ∧
       h ⊆ h' ∧
       Store.holds_index h' _packages ps ∧
       match r, (_findPackage ps packageName).1 with
       | Some l, Some p => Store.holds_package h' l p
       | None, None => True
       | _, _ => False
       end) ∧
  (∀ package p packageNames X,
     Store.holds_package h package p →
     h !! packageNames = Some (Store.SetObj X) →
     ∃ l h',
       Store._checkPackageRequirements _packages package packageNames h = Some (l, h') ∧
       h ⊆ h' ∧
       Store.holds_index h' _packages ps ∧
       Store.holds_package h' package p ∧
       h' !! packageNames = Some (Store.SetObj X) ∧
       h !! l = None ∧
       h' !! l = Some (Store.SetObj (_checkPackageRequirements ps p X).1)).
Proof.
  intros Hindex. split_and!.
  - intros request requested withDependencies Hreq.
    destruct (returns_packagesDownload _packages h ps request requested withDependencies ∅
                Hindex Hreq) as (l & h' & Hrun & Hsub & Hl & _).
    exists l, h'. split_and!; [done|done| | |done|].
    + by eapply lookup_weaken.
    + by eapply holds_index_mono.
    + intros cache0.
      destruct (returns_packagesDownload _packages h ps request requested
                  withDependencies cache0 Hindex Hreq)
        as (l2 & h2 & Hrun2 & _ & _ & res & Hres & Hl2).
      rewrite Hrun in Hrun2. simplify_eq. by exists res.
  - intros packageName.
    destruct (returns_findPackage _packages h ps packageName Hindex)
      as (r & h' & Hrun & Hsub & Hr).
    exists r, h'. split_and!; [done|done|by eapply holds_index_mono|].
    destruct r as [l|], (_findPackage ps packageName).1 as [p|]; try done.
    by eapply holds_package_mono.
  - intros package p packageNames X Hp HX.
    destruct (returns_checkPackageRequirements _packages h ps package p packageNames X
                Hindex Hp HX) as (l & h' & Hrun & Hsub & Hl & Hl').
    exists l, h'. split_and!; [done|done| | | |done|done].
    + by eapply holds_index_mono.
    + by eapply holds_package_mono.
    + by eapply lookup_weaken.
Qed.

(** ** The properties on the sample indexes *)

Lemma elem_of_matchedpackages (_packages : list Package) (packageName n : string) :
  n ∈ matchedpackages _packages packageName ↔
  ∃ p, p ∈ _packages ∧ name p = n ∧ fnmatchcase (normalized p) packageName.
Proof.
  unfold matchedpackages. rewrite elem_of_list_to_set, list_elem_of_fmap. split.
  - intros (p & -> & [Hm Hp]%list_elem_of_filter). by exists p.
  - intros (p & Hp & <- & Hm). exists p. split; [done|]. by apply list_elem_of_filter.
Qed.

(** C6, on a failing input.  The pattern ["foo*"] matches both
    [mingw32-foobar] and [mingw64-foobar], as claimed.  But the code
    normalises a name with [replace], which removes [mingw32-] and [mingw64-]
    wherever they occur: the token ["libfoo"] matches the package named
    [libmingw32-foo], which it does not match when only a leading prefix is
    stripped, and [packagesDownload] returns the file of that package. *)
Theorem glob_strips_inner_occurrence :
  matchedpackages Sample.foobars "foo*" = {["mingw32-foobar"; "mingw64-foobar"]} ∧
  endswith "libfoo" ".rpm" = false ∧
  normalized Sample.libfoo = "libfoo" ∧
  strip_leading_prefix (name Sample.libfoo) = "libmingw32-foo" ∧
  matchedpackages Sample.foobars "libfoo" = {["libmingw32-foo"]} ∧
  matched_by_leading_prefix Sample.foobars "libfoo" = ∅ ∧
  @packagesDownload ascending Sample.foobars {["libfoo"]} false ∅
    = Some ["libmingw32-foo-1.0-1.1.noarch.rpm"].
Proof. split_and!; by vm_compute. Qed.

Lemma findPackage_selects_newest_witness :
  (2 ≤ List.length (filter (name_or_filename "mingw32-zlib") Sample.zlibs))%nat ∧
  ∃ p before after,
    (_findPackage Sample.zlibs "mingw32-zlib").1 = Some p ∧
    filter (name_or_filename "mingw32-zlib") Sample.zlibs = before ++ p :: after ∧
    (∀ q, q ∈ before → buildtime q < buildtime p) ∧
    (∀ q, q ∈ after → buildtime q ≤ buildtime p) ∧
    (∀ q, q ∈ filter (name_or_filename "mingw32-zlib") Sample.zlibs →
          buildtime q ≤ buildtime p) ∧
    MultiplePackages "mingw32-zlib" ∈ (_findPackage Sample.zlibs "mingw32-zlib").2.
Proof.
  split; [vm_compute; lia|].
  apply (findPackage_selects_newest Sample.zlibs "mingw32-zlib"). vm_compute. lia.
Defined.

(** Of the two newest builds, which have the same build time, the one that
    comes first in the index is selected. *)
Example findPackage_tie :
  (_findPackage Sample.zlibs "mingw32-zlib").1 = Some Sample.zlib_8a ∧
  (_findPackage (reverse Sample.zlibs) "mingw32-zlib").1 = Some Sample.zlib_8b.
Proof. split; by vm_compute. Qed.

Lemma findByNameOrFilename_filename_witness :
  findByNameOrFilename Sample.zlibs (filename Sample.zlib_8b) = [Sample.zlib_8b] ∧
  _findPackage Sample.zlibs (filename Sample.zlib_8b) = (Some Sample.zlib_8b, []).
Proof.
  apply (findByNameOrFilename_filename Sample.zlibs Sample.zlib_8b).
  - compute_done.
  - compute_done.
  - intros Q HQ _. revert Q HQ. apply Forall_forall. compute_done.
Defined.

Lemma provider_choice_witness :
  (∃ d,
     head (@set_iter ascending (providersOf Sample.two_providers "a")) = Some d ∧
     d ∈ providersOf Sample.two_providers "a" ∧
     (∀ acc, (@check_requirement ascending Sample.two_providers Sample.B {["B"]} acc "a").1
             = acc.1 ∪ {[d]}) ∧
     d ∈ (@_checkPackageRequirements ascending Sample.two_providers Sample.B {["B"]}).1 ∧
     (∀ d', d' ∈ providersOf Sample.two_providers "a" →
        d' ∈ (@_checkPackageRequirements ascending Sample.two_providers Sample.B {["B"]}).1 →
        d' = d ∨
        ∃ r', r' ≠ "a" ∧ r' ∈ requires Sample.B ∧
              providersOf Sample.two_providers r' ∩ {["B"]} = ∅ ∧
              head (@set_iter ascending (providersOf Sample.two_providers r')) = Some d')) ∧
  (∀ d', d' ∈ (@_checkPackageRequirements ascending Sample.two_providers Sample.B {["B"]}).1 ↔
         ∃ r', r' ∈ requires Sample.B ∧
               providersOf Sample.two_providers r' ∩ {["B"]} = ∅ ∧
               head (@set_iter ascending (providersOf Sample.two_providers r')) = Some d') ∧
  (∀ O' : SetOrder,
     (∀ r', r' ∈ requires Sample.B →
        @set_pop O' (providersOf Sample.two_providers r')
        = @set_pop ascending (providersOf Sample.two_providers r')) →
     (@_checkPackageRequirements O' Sample.two_providers Sample.B {["B"]}).1
     = (@_checkPackageRequirements ascending Sample.two_providers Sample.B {["B"]}).1).
Proof.
  apply (provider_choice ascending Sample.two_providers Sample.B {["B"]} "a");
    compute_done.
Defined.

(** C8, as stated, fails: the same package, index and set of names, walked
    in two set orders, give two different providers. *)
Lemma provider_choice_depends_on_order :
  "a" ∈ requires Sample.B ∧
  providersOf Sample.two_providers "a" = {["A1"; "A2"]} ∧
  providersOf Sample.two_providers "a" ∩ {["B"]} = ∅ ∧
  (@_checkPackageRequirements ascending Sample.two_providers Sample.B {["B"]}).1 = {["A1"]} ∧
  (@_checkPackageRequirements descending Sample.two_providers Sample.B {["B"]}).1 = {["A2"]} ∧
  (@_checkPackageRequirements ascending Sample.two_providers Sample.B {["B"]}).1
  ≠ (@_checkPackageRequirements descending Sample.two_providers Sample.B {["B"]}).1.
Proof. split_and!; compute_done. Qed.

(** C5, as stated, fails: a package requested by its name and by its file
    name is returned twice, in either set order and with or without
    dependencies.  Also, one requested pattern can stand for several names
    and then brings one file name for each. *)
Lemma result_repeats_filename :
  @packagesDownload ascending [Sample.A] {["A"; "A-1.0-1.1.noarch.rpm"]} false ∅
    = Some ["A-1.0-1.1.noarch.rpm"; "A-1.0-1.1.noarch.rpm"] ∧
  @packagesDownload descending [Sample.A] {["A"; "A-1.0-1.1.noarch.rpm"]} true ∅
    = Some ["A-1.0-1.1.noarch.rpm"; "A-1.0-1.1.noarch.rpm"] ∧
  ¬ NoDup ["A-1.0-1.1.noarch.rpm"; "A-1.0-1.1.noarch.rpm"] ∧
  @packagesDownload ascending Sample.foobars {["foo*"]} false ∅
    = Some ["mingw64-foobar-1.0-1.1.noarch.rpm"; "mingw32-foobar-1.0-1.1.noarch.rpm"].
Proof.
  split_and!; [by vm_compute..| |by vm_compute].
  intros Hnd. apply NoDup_cons in Hnd as [Hin _]. apply Hin. left.
Qed.

(** C4, as stated, fails: [B] needs a capability that [A1] and [A2] provide;
    the request for [B] and [A2] resolves to these two, and resolving their
    file names again adds [A1], which [pop] picks in the ascending order.  In
    the descending order the same happens to the request for [B] and [A1]. *)
Lemma resolving_again_adds_package :
  (@packagesDownload ascending Sample.two_providers {["B"; "A2"]} true ∅
     = Some ["B-1.0-1.1.noarch.rpm"; "A2-1.0-1.1.noarch.rpm"] ∧
   @packagesDownload ascending Sample.two_providers
      (list_to_set ["B-1.0-1.1.noarch.rpm"; "A2-1.0-1.1.noarch.rpm"]) true ∅
     = Some ["B-1.0-1.1.noarch.rpm"; "A1-1.0-1.1.noarch.rpm"; "A2-1.0-1.1.noarch.rpm"] ∧
   (list_to_set ["B-1.0-1.1.noarch.rpm"; "A1-1.0-1.1.noarch.rpm"; "A2-1.0-1.1.noarch.rpm"]
      : gset string)
   ≠ list_to_set ["B-1.0-1.1.noarch.rpm"; "A2-1.0-1.1.noarch.rpm"]) ∧
  (@packagesDownload descending Sample.two_providers {["B"; "A1"]} true ∅
     = Some ["A1-1.0-1.1.noarch.rpm"; "B-1.0-1.1.noarch.rpm"] ∧
   @packagesDownload descending Sample.two_providers
      (list_to_set ["A1-1.0-1.1.noarch.rpm"; "B-1.0-1.1.noarch.rpm"]) true ∅
     = Some ["A1-1.0-1.1.noarch.rpm"; "B-1.0-1.1.noarch.rpm"; "A2-1.0-1.1.noarch.rpm"] ∧
   (list_to_set ["A1-1.0-1.1.noarch.rpm"; "B-1.0-1.1.noarch.rpm"; "A2-1.0-1.1.noarch.rpm"]
      : gset string)
   ≠ list_to_set ["A1-1.0-1.1.noarch.rpm"; "B-1.0-1.1.noarch.rpm"]).
Proof. split_and!; compute_done. Qed.

Lemma resolving_again_same_set_witness :
  archive_filenames [Sample.A; Sample.B] ∧
  single_provider [Sample.A; Sample.B] ∧
  ∃ res1 res2,
    @packagesDownload ascending [Sample.A; Sample.B] {["B"]} true ∅ = Some res1 ∧
    @packagesDownload descending [Sample.A; Sample.B] (list_to_set res1) true ∅
      = Some res2 ∧
    (list_to_set res2 : gset string) = list_to_set res1.
Proof.
  assert (archive_filenames [Sample.A; Sample.B]) as Ha by (split_and!; compute_done).
  assert (single_provider [Sample.A; Sample.B]) as Hs by compute_done.
  split_and!; [done..|].
  exact (resolving_again_same_set ascending descending [Sample.A; Sample.B] {["B"]} ∅ ∅ Ha Hs).
Defined.

Lemma end_to_end_with_dependencies_witness :
  ∃ res,
    @packagesDownload ascending [Sample.B; Sample.A] {["B"]} true ∅ = Some res ∧
    res = [filename Sample.B; filename Sample.A] ∧
    (list_to_set res : gset string) = {[filename Sample.A; filename Sample.B]}.
Proof.
  apply (@end_to_end_with_dependencies ascending 1 2 (url Sample.A) (url Sample.B)
           (filename Sample.A) (filename Sample.B) [Sample.B; Sample.A] ∅).
  - apply Permutation_swap.
  - compute_done.
  - compute_done.
  - compute_done.
Defined.


(** The run of [packagesDownload] on the sample store: the result is a new
    list, the request and the index are as they were. *)
Example store_run :
  ∃ l h',
    @Store.packagesDownload ascending 7%positive 8%positive true Sample.objects
      = Some (l, h') ∧
    Sample.objects !! l = None ∧
    h' !! l = Some (Store.ListObj ["B-1.0-1.1.noarch.rpm"; "A-1.0-1.1.noarch.rpm"]) ∧
    h' !! 8%positive = Sample.objects !! 8%positive ∧
    h' !! 7%positive = Sample.objects !! 7%positive.
Proof.
  destruct (@Store.packagesDownload ascending 7%positive 8%positive true Sample.objects)
    as [[l h']|] eqn:E; [|by vm_compute in E].
  exists l, h'. split; [done|].
  vm_compute in E. injection E as <- <-. split_and!; by vm_compute.
Qed.

Lemma holds_sample_index : Store.holds_index Sample.objects 7%positive [Sample.A; Sample.B].
Proof.
  exists [3%positive; 6%positive]. split; [reflexivity|].
  repeat constructor.
  - exists Sample.dict_A. split_and!; reflexivity.
  - exists Sample.dict_B. split_and!; reflexivity.
Defined.

Lemma resolution_changes_no_input_witness :
  Store.holds_index Sample.objects 7%positive [Sample.A; Sample.B] ∧
  ∃ l h',
    @Store.packagesDownload ascending 7%positive 8%positive true Sample.objects
      = Some (l, h') ∧
    Sample.objects ⊆ h' ∧
    h' !! 8%positive = Some (Store.SetObj {["B"]}) ∧
    Store.holds_index h' 7%positive [Sample.A; Sample.B] ∧
    Sample.objects !! l = None ∧
    ∀ cache0, ∃ res,
      @packagesDownload ascending [Sample.A; Sample.B] {["B"]} true cache0 = Some res ∧
      h' !! l = Some (Store.ListObj res).
Proof.
  split; [exact holds_sample_index|].
  destruct (@resolution_changes_no_input ascending Sample.objects 7%positive
              [Sample.A; Sample.B] holds_sample_index) as [Hdownload _].
  apply (Hdownload 8%positive {["B"]} true). reflexivity.
Defined.

(** * More properties of the script *)

(** ** What [packagesDownload] returns *)

Lemma found_filename_in_index (_packages : list Package) (n f : string) :
  found_filename _packages n = Some f → ∃ p, p ∈ _packages ∧ filename p = f.
Proof.
  unfold found_filename. intros Hf.
  destruct (_findPackage _packages n).1 as [p|] eqn:E; simplify_eq/=.
  exists p. split; [|done]. by apply _findPackage_Some in E as [? _].
Qed.

Lemma metadata_package_is_Some (_packages : list Package) (p : Package) :
  p ∈ _packages →
  ∃ q, metadata_package _packages (filename p) = Some q ∧
       q ∈ _packages ∧ filename q = filename p.
Proof.
  intros Hp. unfold metadata_package.
  destruct (filter (λ q, filename q = filename p) _packages) as [|q l] eqn:E.
  - assert (p ∈ filter (λ q, filename q = filename p) _packages) as Hin
      by by apply list_elem_of_filter.
    rewrite E in Hin. by apply elem_of_nil in Hin.
  - exists q. split; [done|].
    assert (q ∈ filter (λ q, filename q = filename p) _packages) as Hin
      by (rewrite E; left).
    apply list_elem_of_filter in Hin as [? ?]. done.
Qed.

(** X1.  Every file name [packagesDownload] returns is the file name of a
    package of the index, so the lookup by file name that [main] makes for
    the metadata file, [[p for p in _packages if ...][0]], finds a package
    for each of them and raises no [IndexError]. *)
Theorem result_in_index `{!SetOrder} (_packages : list Package)
    (requested : gset string) (withDependencies : bool) (cache0 : gset string) :
  ∃ res,
    packagesDownload _packages requested withDependencies cache0 = Some res ∧
    ∀ f, f ∈ res →
      ∃ p, metadata_package _packages f = Some p ∧ p ∈ _packages ∧ filename p = f.
Proof.
  destruct (packagesDownload_drains _packages requested withDependencies cache0)
    as (names & st' & _ & Hres & _).
  eexists. split; [done|].
  intros f (n & _ & Hf)%list_elem_of_omap.
  apply found_filename_in_index in Hf as (p & Hp & <-).
  by apply metadata_package_is_Some.
Qed.

Lemma packageNames_new_empty `{!SetOrder} (_packages : list Package) :
  packageNames_new _packages ∅ = ∅.
Proof.
  apply set_eq. intros n. rewrite elem_of_packageNames_new. set_solver.
Qed.

(** X2.  For the empty request [packagesDownload] looks nothing up: it
    returns the empty list, logs nothing and leaves the cache as it is,
    whatever the index holds. *)
Theorem empty_request `{!SetOrder} (_packages : list Package) (withDependencies : bool)
    (cache0 : gset string) :
  packagesDownload_run _packages ∅ withDependencies cache0
  = Some {| packageNames := []; allPackageNames := ∅; packageFilenames := [];
            log := []; cache := cache0 |} ∧
  packagesDownload _packages ∅ withDependencies cache0 = Some [].
Proof.
  assert (packagesDownload_run _packages ∅ withDependencies cache0
          = Some {| packageNames := []; allPackageNames := ∅; packageFilenames := [];
                    log := []; cache := cache0 |}) as E.
  { unfold packagesDownload_run, initial_state. cbv zeta.
    rewrite packageNames_new_empty, set_iter_empty. by destruct (turns _ _). }
  split; [done|]. unfold packagesDownload. by rewrite E.
Qed.

(** The names the loop pops depend on the queue and on [allPackageNames]
    only. *)
Lemma drains_same_names `{!SetOrder} (_packages : list Package) withDependencies
    st1 names1 st1' st2 names2 st2' :
  drains _packages withDependencies st1 names1 st1' →
  drains _packages withDependencies st2 names2 st2' →
  packageNames st1 = packageNames st2 →
  allPackageNames st1 = allPackageNames st2 →
  names1 = names2.
Proof.
  intros Hd1. revert st2 names2 st2'.
  induction Hd1 as [st1 E|st1 q n names1 st1' Hq Hd1 IH];
    intros st2 names2 st2' Hd2 Hqq Hss.
  - inversion Hd2 as [|? q' n' ? ? Hq']; subst; [done|].
    rewrite <- Hqq, E in Hq'. by destruct q'.
  - inversion Hd2 as [? E|? q' n' names' ? Hq' Hd2']; subst.
    + rewrite <- Hqq, Hq in E. by destruct q.
    + rewrite <- Hqq, Hq in Hq'. apply app_inj_tail in Hq' as [<- <-].
      f_equal. eapply IH; [done|..].
      * rewrite (loop_body_packageNames _ _ _ q n Hq).
        rewrite (loop_body_packageNames _ _ st2 q n) by by rewrite <- Hqq.
        by rewrite Hss.
      * rewrite (loop_body_allPackageNames _ _ _ q n Hq).
        rewrite (loop_body_allPackageNames _ _ st2 q n) by by rewrite <- Hqq.
        by rewrite Hss.
Qed.

(** X4.  What is in the cache has no part in the resolution: with two
    different cache contents [packagesDownload] returns the same list. *)
Theorem result_independent_of_cache `{!SetOrder} (_packages : list Package)
    (requested : gset string) (withDependencies : bool) (cache1 cache2 : gset string) :
  packagesDownload _packages requested withDependencies cache1
  = packagesDownload _packages requested withDependencies cache2.
Proof.
  destruct (packagesDownload_drains _packages requested withDependencies cache1)
    as (names1 & st1 & _ & -> & Hd1).
  destruct (packagesDownload_drains _packages requested withDependencies cache2)
    as (names2 & st2 & _ & -> & Hd2).
  by rewrite (drains_same_names _ _ _ _ _ _ _ _ Hd1 Hd2).
Qed.

(** X5.  With dependencies the result is closed under requirements.
    [names] is the list of the names the loop pops, in the order of the
    pops, and the result holds the file name found for each of them.  If
    the package selected for a popped name requires a capability that some
    package of the index provides, then the name of one of its providers was
    popped too, a package was found for that name, and the file name of that
    package is in the result. *)
Theorem result_closed_under_requirements `{!SetOrder} (_packages : list Package)
    (requested cache0 : gset string) :
  ∃ res names st',
    packagesDownload_run _packages requested true cache0 = Some st' ∧
    drains _packages true (initial_state _packages requested cache0) names st' ∧
    packagesDownload _packages requested true cache0 = Some res ∧
    res = packageFilenames st' ∧
    res = omap (found_filename _packages) names ∧
    ∀ n p r,
      n ∈ names → (_findPackage _packages n).1 = Some p → r ∈ requires p →
      providersOf _packages r ≠ ∅ →
      ∃ d p',
        d ∈ providersOf _packages r ∧ d ∈ names ∧
        (_findPackage _packages d).1 = Some p' ∧ filename p' ∈ res.
Proof.
  destruct (packagesDownload_drains _packages requested true cache0)
    as (names & st' & Hrun & Hres & Hd).
  exists (omap (found_filename _packages) names), names, st'.
  split_and!; [done|done|done| |done|].
  { unfold packagesDownload in Hres. rewrite Hrun in Hres. by simplify_eq/=. }
  intros n p r Hn Hp Hr Hne.
  pose proof (drains_closed _ _ _ _ n p r Hd Hn Hp Hr Hne) as Hcl.
  destruct (set_choose_L _ Hcl) as [d [Hd1 Hd2]%elem_of_intersection].
  assert (d ∈ names) as Hdn.
  { destruct (drains_allPackageNames _ _ _ _ _ Hd) as [_ Hin].
    destruct (Hin d Hd2) as [Hd'|Hd']; [|done].
    eapply drains_queue_popped; [done|]. simpl in *. by apply elem_of_set_iter. }
  destruct (proj1 (elem_of_providersOf _ _ _) Hd1) as (q & Hq & _ & Hname).
  destruct (_findPackage_is_Some _packages d q Hq) as [p' Hp']; [by left|].
  exists d, p'. split_and!; [done..|].
  apply list_elem_of_omap. exists d. split; [done|].
  unfold found_filename. by rewrite Hp'.
Qed.

Lemma elem_of_packageNames_new_order (O1 O2 : SetOrder) (_packages : list Package)
    (requested : gset string) :
  @packageNames_new O1 _packages requested = @packageNames_new O2 _packages requested.
Proof.
  apply set_eq. intros n.
  by rewrite (@elem_of_packageNames_new O1), (@elem_of_packageNames_new O2).
Qed.

(** X6.  Asking for dependencies only adds files: every file name returned
    without dependencies is returned with dependencies, whatever the set
    orders and caches of the two runs. *)
Theorem dependencies_only_add (O1 O2 : SetOrder) (_packages : list Package)
    (requested cache1 cache2 : gset string) :
  ∃ res res',
    @packagesDownload O1 _packages requested false cache1 = Some res ∧
    @packagesDownload O2 _packages requested true cache2 = Some res' ∧
    ∀ f, f ∈ res → f ∈ res'.
Proof.
  destruct (@packagesDownload_drains O1 _packages requested false cache1)
    as (names1 & st1 & _ & Hres1 & Hd1).
  destruct (@packagesDownload_drains O2 _packages requested true cache2)
    as (names2 & st2 & _ & Hres2 & Hd2).
  eexists _, _. split_and!; [done..|].
  intros f (n & Hn & Hf)%list_elem_of_omap.
  apply list_elem_of_omap. exists n. split; [|done].
  apply (@drains_false O1) in Hd1. subst names1. simpl in Hn.
  apply elem_of_reverse, (@elem_of_set_iter O1) in Hn.
  eapply (@drains_queue_popped O2); [done|]. simpl.
  apply (@elem_of_set_iter O2). by rewrite (elem_of_packageNames_new_order O2 O1).
Qed.

(** X7.  Without dependencies the set order decides the order of the
    result and nothing else: two runs in different set orders return the
    same file names the same number of times. *)
Theorem result_order_independent (O1 O2 : SetOrder) (_packages : list Package)
    (requested cache1 cache2 : gset string) :
  ∃ res1 res2,
    @packagesDownload O1 _packages requested false cache1 = Some res1 ∧
    @packagesDownload O2 _packages requested false cache2 = Some res2 ∧
    res1 ≡ₚ res2.
Proof.
  destruct (@packagesDownload_drains O1 _packages requested false cache1)
    as (names1 & st1 & _ & Hres1 & Hd1).
  destruct (@packagesDownload_drains O2 _packages requested false cache2)
    as (names2 & st2 & _ & Hres2 & Hd2).
  eexists _, _. split_and!; [done..|].
  apply (@drains_false O1) in Hd1. apply (@drains_false O2) in Hd2.
  subst names1 names2. simpl.
  rewrite !reverse_Permutation, (elem_of_packageNames_new_order O1 O2).
  by rewrite (@set_iter_perm O1), (@set_iter_perm O2).
Qed.

Lemma length_omap_le {A B} (f : A → option B) (l : list A) :
  (List.length (omap f l) ≤ List.length l)%nat.
Proof.
  induction l as [|x l IH]; [done|].
  change (omap f (x :: l)) with (match f x with Some y => y :: omap f l | None => omap f l end).
  destruct (f x); simpl; lia.
Qed.

(** X11.  No name is popped twice, so the loop makes at most as many turns
    as there are names to start with and names in the index: the result is
    no longer than that. *)
Theorem result_length_bound `{!SetOrder} (_packages : list Package)
    (requested : gset string) (withDependencies : bool) (cache0 : gset string) :
  ∃ res,
    packagesDownload _packages requested withDependencies cache0 = Some res ∧
    (List.length res ≤ size (packageNames_new _packages requested)
                       + List.length _packages)%nat.
Proof.
  destruct (packagesDownload_drains _packages requested withDependencies cache0)
    as (names & st' & _ & Hres & Hd).
  eexists. split; [done|].
  etrans; [apply length_omap_le|].
  etrans; [by eapply drains_length|].
  etrans; [apply measure_le_turns|].
  unfold turns. simpl. by rewrite length_set_iter.
Qed.

(** ** What is logged and downloaded *)

Lemma downloads_app (l1 l2 : list diag) : downloads (l1 ++ l2) = downloads l1 ++ downloads l2.
Proof. apply omap_app. Qed.

Lemma downloads_none (l : list diag) :
  (∀ d, d ∈ l → ∀ f, d ≠ Downloading f) → downloads l = [].
Proof.
  intros Hl. apply elem_of_nil_inv. intros f (d & Hd & Hf)%list_elem_of_omap.
  destruct d; simplify_eq. by eapply Hl.
Qed.

Lemma _findPackage_log (_packages : list Package) (packageName : string) (d : diag) :
  d ∈ (_findPackage _packages packageName).2 →
  d = MultiplePackages packageName ∨
  ∃ p, p ∈ findByNameOrFilename _packages packageName ∧ d = Candidate (filename p).
Proof.
  unfold _findPackage.
  remember (findByNameOrFilename _packages packageName) as packages eqn:E.
  destruct packages as [|p l]; [by intros ?%elem_of_nil|]. cbn [snd].
  destruct (1 <? _)%nat; [|by intros ?%elem_of_nil].
  intros [->|Hd]%elem_of_cons; [by left|]. right.
  apply list_elem_of_fmap in Hd as (q & -> & Hq). by exists q.
Qed.

Lemma downloads_findPackage (_packages : list Package) (packageName : string) :
  downloads (_findPackage _packages packageName).2 = [].
Proof.
  apply downloads_none. intros d Hd f ->.
  apply _findPackage_log in Hd as [?|(p & _ & ?)]; done.
Qed.

Section RequirementLog.
Context `{!SetOrder}.
Variable _packages : list Package.

Lemma check_requirement_snd package packageNames acc requirement :
  (check_requirement _packages package packageNames acc requirement).2
  = acc.2 ++ option_list (requirement_event _packages package packageNames requirement).
Proof.
  unfold check_requirement, requirement_event. cbv zeta.
  destruct (decide _); simpl; [|by rewrite app_nil_r].
  by destruct (set_pop _).
Qed.

Lemma foldl_check_requirement_snd package packageNames (l : list string) acc :
  (foldl (check_requirement _packages package packageNames) acc l).2
  = acc.2 ++ omap (requirement_event _packages package packageNames) l.
Proof.
  revert acc. induction l as [|r l IH]; intros acc; simpl; [by rewrite app_nil_r|].
  rewrite IH, check_requirement_snd, <- app_assoc. f_equal.
  by destruct (requirement_event _ _ _ r).
Qed.

(** The log of [_checkPackageRequirements]: one event for each requirement
    that no name of [packageNames] provides, in the order of the walk. *)
Lemma _checkPackageRequirements_log package packageNames :
  (_checkPackageRequirements _packages package packageNames).2
  = omap (requirement_event _packages package packageNames) (set_iter (requires package)).
Proof. unfold _checkPackageRequirements. by rewrite foldl_check_requirement_snd. Qed.

Lemma downloads_checkPackageRequirements package packageNames :
  downloads (_checkPackageRequirements _packages package packageNames).2 = [].
Proof.
  apply downloads_none. intros d Hd f ->.
  rewrite _checkPackageRequirements_log in Hd.
  apply list_elem_of_omap in Hd as (r & _ & Hr).
  unfold requirement_event in Hr. destruct (decide _); [|done].
  by destruct (set_pop _).
Qed.
End RequirementLog.

(** X10.  [_checkPackageRequirements] reports a requirement that no package
    provides with exactly one [RequiresNotProvided], and a requirement whose
    providers are all outside [packageNames] with exactly one
    [RequiresProvidedBy] that lists all its providers; a requirement that a
    name of [packageNames] provides is not reported, and nothing else is
    logged. *)
Theorem requirement_diagnostics `{!SetOrder} (_packages : list Package)
    (package : Package) (packageNames : gset string) :
  let events := (_checkPackageRequirements _packages package packageNames).2 in
  NoDup events ∧
  (∀ r, RequiresNotProvided (name package) r ∈ events ↔
        r ∈ requires package ∧ providersOf _packages r = ∅) ∧
  (∀ r l, RequiresProvidedBy (name package) r l ∈ events ↔
          r ∈ requires package ∧ providersOf _packages r ≠ ∅ ∧
          providersOf _packages r ∩ packageNames = ∅ ∧
          l = set_iter (providersOf _packages r)) ∧
  (∀ d, d ∈ events →
        ∃ r, r ∈ requires package ∧ providersOf _packages r ∩ packageNames = ∅ ∧
             (d = RequiresNotProvided (name package) r ∨
              d = RequiresProvidedBy (name package) r (set_iter (providersOf _packages r)))).
Proof.
  intros events. unfold events. rewrite _checkPackageRequirements_log.
  assert (∀ r d, requirement_event _packages package packageNames r = Some d ↔
            providersOf _packages r ∩ packageNames = ∅ ∧
            ((providersOf _packages r = ∅ ∧ d = RequiresNotProvided (name package) r) ∨
             (providersOf _packages r ≠ ∅ ∧
              d = RequiresProvidedBy (name package) r (set_iter (providersOf _packages r)))))
    as Hev.
  { intros r d. unfold requirement_event. cbv zeta.
    destruct (decide _) as [Hdisj|Hdisj]; [|naive_solver].
    destruct (set_pop (providersOf _packages r)) as [x|] eqn:E.
    - apply set_pop_Some in E.
      assert (providersOf _packages r ≠ ∅) by set_solver. naive_solver.
    - apply set_pop_None in E. naive_solver. }
  split_and!.
  - apply NoDup_omap_inj; [apply NoDup_set_iter|].
    intros r r' _ _ [d Hd] Heq. rewrite Hd in Heq. symmetry in Heq.
    apply Hev in Hd, Heq. naive_solver.
  - intros r. rewrite list_elem_of_omap. split.
    + intros (r' & Hr' & Hd). apply elem_of_set_iter in Hr'. apply Hev in Hd.
      naive_solver.
    + intros [Hr He]. exists r. split; [by apply elem_of_set_iter|].
      apply Hev. split; [set_solver|]. by left.
  - intros r l. rewrite list_elem_of_omap. split.
    + intros (r' & Hr' & Hd). apply elem_of_set_iter in Hr'. apply Hev in Hd.
      naive_solver.
    + intros (Hr & Hne & Hdisj & ->). exists r. split; [by apply elem_of_set_iter|].
      apply Hev. split; [done|]. by right.
  - intros d (r & Hr & Hd)%list_elem_of_omap. apply elem_of_set_iter in Hr.
    apply Hev in Hd. exists r. naive_solver.
Qed.

Section Downloads.
Context `{!SetOrder}.
Variable _packages : list Package.

(** What one turn does to the cache and to the list of downloads. *)
Lemma loop_body_fetch withDependencies st q n :
  packageNames st = q ++ [n] →
  cache (loop_body _packages withDependencies st)
  = cache st ∪ list_to_set (option_list (found_filename _packages n)) ∧
  downloads (log (loop_body _packages withDependencies st))
  = downloads (log st) ++
    match found_filename _packages n with
    | Some f => if decide (f ∈ cache st) then [] else [f]
    | None => []
    end.
Proof.
  intros Hq. unfold loop_body, found_filename. rewrite Hq, list_pop_snoc.
  pose proof (downloads_findPackage _packages n) as Hlog1.
  destruct (_findPackage _packages n) as [[package|] log1]; simpl in *.
  - pose proof (downloads_checkPackageRequirements _packages package (allPackageNames st))
      as Hlog2.
    destruct (_checkPackageRequirements _packages package (allPackageNames st))
      as [dependencies log2]; simpl in *.
    unfold fetch. simpl. destruct (decide (filename package ∈ cache st)); simpl.
    + rewrite !downloads_app, Hlog1, Hlog2, !app_nil_r. split; [set_solver|done].
    + rewrite !downloads_app, Hlog1, Hlog2, !app_nil_r. split; [set_solver|done].
  - rewrite !downloads_app, Hlog1. simpl. rewrite app_nil_r. split; [set_solver|done].
Qed.

Lemma drains_fetch withDependencies st names st' :
  drains _packages withDependencies st names st' →
  cache st' = cache st ∪ list_to_set (omap (found_filename _packages) names) ∧
  ∃ D, downloads (log st') = downloads (log st) ++ D ∧
       NoDup D ∧
       ∀ f, f ∈ D ↔ f ∈ omap (found_filename _packages) names ∧ f ∉ cache st.
Proof.
  induction 1 as [st E|st q n names st' Hq Hd (IHc & D & IHl & IHnd & IHin)].
  { split; [set_solver|]. exists []. rewrite app_nil_r. split_and!; [done|constructor|].
    intros f. split; [by intros ?%elem_of_nil|]. by intros [?%elem_of_nil _]. }
  destruct (loop_body_fetch withDependencies st q n Hq) as [Hc Hl].
  rewrite Hc in IHc, IHin. rewrite Hl in IHl.
  change (omap (found_filename _packages) (n :: names))
    with (match found_filename _packages n with
          | Some y => y :: omap (found_filename _packages) names
          | None => omap (found_filename _packages) names
          end).
  destruct (found_filename _packages n) as [fn|]; simpl in *.
  - split; [set_solver|].
    destruct (decide (fn ∈ cache st)) as [Hin|Hout].
    + exists D. rewrite app_nil_r in IHl. split_and!; [done..|].
      intros f. rewrite IHin, elem_of_cons. set_solver.
    + exists (fn :: D). rewrite <- app_assoc in IHl. split_and!; [done| |].
      * constructor; [|done]. rewrite IHin. set_solver.
      * intros f. rewrite !elem_of_cons, IHin.
        destruct (decide (f = fn)) as [->|]; set_solver.
  - split; [set_solver|]. exists D. rewrite app_nil_r in IHl. split_and!; [done..|].
    intros f. rewrite IHin. set_solver.
Qed.
End Downloads.

(** X3.  For an index whose file names name directory entries (they are not
    empty, not [.] or [..] and hold no ['/']), so that a file name passes
    the existence test exactly when the cache directory holds a file of
    that name: a returned file that is not in the cache is downloaded, once,
    even when the result holds its name twice; a file that is in the cache
    is not downloaded; nothing else is.  After the run the cache holds what
    it held and every returned file. *)
Theorem downloads_and_cache `{!SetOrder} (_packages : list Package)
    (requested : gset string) (withDependencies : bool) (cache0 : gset string) :
  Forall (λ p, entry_name (filename p) = true) _packages →
  ∃ st',
    packagesDownload_run _packages requested withDependencies cache0 = Some st' ∧
    Forall (λ f, entry_name f = true) (packageFilenames st') ∧
    cache st' = cache0 ∪ list_to_set (packageFilenames st') ∧
    NoDup (downloads (log st')) ∧
    ∀ f, f ∈ downloads (log st') ↔ f ∈ packageFilenames st' ∧ f ∉ cache0.
Proof.
  intros Hentry.
  destruct (packagesDownload_drains _packages requested withDependencies cache0)
    as (names & st' & Hrun & _ & Hd).
  exists st'. split; [done|].
  rewrite (drains_packageFilenames _ _ _ _ _ Hd). simpl.
  destruct (drains_fetch _ _ _ _ _ Hd) as (Hc & D & Hl & Hnd & Hin).
  simpl in *. subst D. split; [|done].
  apply Forall_forall. intros f (n & _ & Hf)%list_elem_of_omap.
  apply found_filename_in_index in Hf as (p & Hp & <-).
  by apply (proj1 (Forall_forall _ _) Hentry).
Qed.

Lemma downloads_and_cache_witness :
  ∃ st',
    @packagesDownload_run ascending Sample.two_providers {["B"]} true
      {["B-1.0-1.1.noarch.rpm"]} = Some st' ∧
    Forall (λ f, entry_name f = true) (packageFilenames st') ∧
    cache st' = {["B-1.0-1.1.noarch.rpm"]} ∪ list_to_set (packageFilenames st') ∧
    NoDup (downloads (log st')) ∧
    ∀ f, f ∈ downloads (log st') ↔
         f ∈ packageFilenames st' ∧ f ∉ ({["B-1.0-1.1.noarch.rpm"]} : gset string).
Proof.
  apply (downloads_and_cache Sample.two_providers {["B"]} true
           {["B-1.0-1.1.noarch.rpm"]}).
  repeat constructor.
Defined.

(** ** The list of [_findPackage], again *)

Section SortedMore.
Context {A : Type} (key : A → Z).

Lemma insert_desc_elem (x y : A) (l : list A) :
  y ∈ insert_desc key x l ↔ y = x ∨ y ∈ l.
Proof. by rewrite insert_desc_perm, elem_of_cons. Qed.

Lemma insert_desc_sorted (x : A) (l : list A) :
  StronglySorted (λ p q, key q ≤ key p) l →
  StronglySorted (λ p q, key q ≤ key p) (insert_desc key x l).
Proof.
  induction 1 as [|y l Hs IH Hy]; simpl; [repeat constructor|].
  destruct (key y <=? key x) eqn:E.
  - apply Z.leb_le in E. constructor; [by constructor|].
    constructor; [done|]. eapply Forall_impl; [exact Hy|]. simpl. lia.
  - apply Z.leb_gt in E. constructor; [done|].
    apply Forall_forall. intros z [->|Hz]%insert_desc_elem; [lia|].
    rewrite Forall_forall in Hy. by apply Hy.
Qed.

Lemma sorted_reverse_sorted (l : list A) :
  StronglySorted (λ p q, key q ≤ key p) (sorted_reverse key l).
Proof.
  induction l as [|x l IH]; [constructor|]. by apply insert_desc_sorted.
Qed.

Lemma insert_desc_filter_key (k : Z) (x : A) (l : list A) :
  filter (λ y, key y = k) (insert_desc key x l)
  = filter (λ y, key y = k) (x :: l).
Proof.
  induction l as [|y l IH]; simpl; [done|].
  destruct (key y <=? key x) eqn:E; [done|]. apply Z.leb_gt in E.
  rewrite (filter_cons _ y), IH, !(filter_cons _ x), (filter_cons _ y).
  destruct (decide (key y = k)), (decide (key x = k)); try done. lia.
Qed.

(** The sort is stable: members of equal key keep their order. *)
Lemma sorted_reverse_filter_key (k : Z) (l : list A) :
  filter (λ y, key y = k) (sorted_reverse key l) = filter (λ y, key y = k) l.
Proof.
  induction l as [|x l IH]; [done|].
  change (sorted_reverse key (x :: l)) with (insert_desc key x (sorted_reverse key l)).
  by rewrite insert_desc_filter_key, !filter_cons, IH.
Qed.
End SortedMore.

(** X8.  The list [_findPackage] selects from holds exactly the packages of
    the index whose name or file name is the token, newest first, and
    packages of the same build time in the order of the index. *)
Theorem findByNameOrFilename_sorted (_packages : list Package) (packageName : string) :
  let packages := findByNameOrFilename _packages packageName in
  packages ≡ₚ filter (name_or_filename packageName) _packages ∧
  StronglySorted (λ p q, buildtime q ≤ buildtime p) packages ∧
  ∀ t, filter (λ p, buildtime p = t) packages
       = filter (λ p, buildtime p = t) (filter (name_or_filename packageName) _packages).
Proof.
  split_and!.
  - apply sorted_reverse_perm.
  - apply sorted_reverse_sorted.
  - intros t. apply sorted_reverse_filter_key.
Qed.


(** ** Strings *)

Lemma contains_cons (old : string) (c : ascii) (s : string) :
  contains old (String c s) = String.prefix old (String c s) || contains old s.
Proof. done. Qed.

Lemma replace_from_absent (old new s : string) :
  contains old s = false → replace_from old new 0 s = s.
Proof.
  induction s as [|c s IH]; [done|].
  rewrite contains_cons. intros [E Hno]%orb_false_iff.
  change (replace_from old new 0 (String c s))
    with (if String.prefix old (String c s)
          then new +:+ replace_from old new (String.length old - 1) s
          else String c (replace_from old new 0 s)).
  rewrite E. f_equal. by apply IH.
Qed.

(** [s.replace(old, new)] is [s] when [old] does not occur in [s]. *)
Lemma str_replace_absent (s old new : string) :
  contains old s = false → str_replace s old new = s.
Proof. apply replace_from_absent. Qed.

(** X15.  A repository URL given with [--repo-url] that holds neither
    [PROJECT] nor [REPOSITORY] is used as it is: the project and repository
    options have no part in the location. *)
Theorem explicit_repository_url (repo_url project repository : string) :
  contains "PROJECT" repo_url = false →
  contains "REPOSITORY" repo_url = false →
  repository_location repo_url project repository = repo_url.
Proof.
  intros Hp Hr. unfold repository_location.
  by rewrite (str_replace_absent repo_url "PROJECT"), str_replace_absent.
Qed.

(** The location made of the default options. *)
Example default_repository_location :
  repository_location "http://download.opensuse.org/repositories/PROJECT/REPOSITORY/"
                      "windows:mingw:win32" "openSUSE_13.2"
  = "http://download.opensuse.org/repositories/windows:/mingw:/win32/openSUSE_13.2/".
Proof. reflexivity. Qed.

Section Plain.
Implicit Types (l s : list ascii).

Lemma translate_plain (fuel : nat) l :
  Forall (λ c, c ≠ "*"%char ∧ c ≠ "?"%char ∧ c ≠ "["%char) l →
  (List.length l ≤ fuel)%nat →
  translate fuel l = GLit <$> l.
Proof.
  intros Hl. revert fuel. induction Hl as [|c l (H1 & H2 & H3) Hl IH]; intros fuel Hf.
  { by destruct fuel. }
  destruct fuel as [|fuel]; simpl in *; [lia|].
  apply Ascii.eqb_neq in H1, H2, H3. rewrite H1, H2, H3.
  f_equal. apply IH. lia.
Qed.

Lemma glob_match_literals l s : glob_match (GLit <$> l) s = true ↔ s = l.
Proof.
  revert s. induction l as [|c l IH]; intros s.
  - destruct s; simpl; naive_solver.
  - rewrite fmap_cons. destruct s as [|d s]; simpl; [naive_solver|].
    rewrite andb_true_iff, Ascii.eqb_eq, IH. naive_solver.
Qed.
End Plain.

Lemma list_ascii_of_string_inj (s t : string) :
  list_ascii_of_string s = list_ascii_of_string t → s = t.
Proof.
  intros E. rewrite <- (string_of_list_ascii_of_string s),
    <- (string_of_list_ascii_of_string t). by rewrite E.
Qed.

Lemma fnmatchcase_literal (name pat : string) :
  plain pat → (fnmatchcase name pat = true ↔ name = pat).
Proof.
  intros Hp. unfold fnmatchcase. cbv zeta.
  rewrite translate_plain by done. rewrite glob_match_literals. split.
  - apply list_ascii_of_string_inj.
  - by intros ->.
Qed.

(** X12.  A pattern without [*], [?] and [[] matches its own text and
    nothing else. *)
Theorem fnmatchcase_plain (name pat : string) :
  plain pat → (fnmatchcase name pat = true ↔ name = pat).
Proof. apply fnmatchcase_literal. Qed.

Lemma prefix_app_same (old b : string) : String.prefix old (old +:+ b) = true.
Proof.
  induction old as [|a old IH]; simpl; [by destruct b|].
  by destruct (ascii_dec a a).
Qed.

Lemma replace_from_skip (old new t s : string) :
  replace_from old new (String.length t) (t +:+ s) = replace_from old new 0 s.
Proof. induction t as [|c t IH]; simpl; [by destruct s|done]. Qed.

Lemma str_replace_leading (old s : string) :
  old ≠ "" → str_replace (old +:+ s) old "" = str_replace s old "".
Proof.
  intros Hold. destruct old as [|a old]; [done|]. unfold str_replace.
  change (replace_from (String a old) "" 0 (String a old +:+ s))
    with (if String.prefix (String a old) (String a old +:+ s)
          then "" +:+ replace_from (String a old) ""
                        (String.length (String a old) - 1) (old +:+ s)
          else String a (replace_from (String a old) "" 0 (old +:+ s))).
  rewrite prefix_app_same. simpl. rewrite Nat.sub_0_r. apply replace_from_skip.
Qed.

Lemma normalized_shapes (x : string) :
  contains "mingw32-" x = false → contains "mingw64-" x = false →
  str_replace (str_replace x "mingw32-" "") "mingw64-" "" = x ∧
  str_replace (str_replace ("mingw32-" +:+ x) "mingw32-" "") "mingw64-" "" = x ∧
  str_replace (str_replace ("mingw64-" +:+ x) "mingw32-" "") "mingw64-" "" = x.
Proof.
  intros H32 H64.
  assert (str_replace x "mingw32-" "" = x) as E32 by by apply str_replace_absent.
  assert (str_replace x "mingw64-" "" = x) as E64 by by apply str_replace_absent.
  split_and!.
  - by rewrite E32.
  - by rewrite str_replace_leading, E32.
  - assert (str_replace ("mingw64-" +:+ x) "mingw32-" "" = "mingw64-" +:+ x) as ->.
    { unfold str_replace in *. simpl. change ("" +:+ x) with x. by rewrite E32. }
    by rewrite str_replace_leading.
Qed.

(** X13.  A plain token (no [*], [?], [[]) matches the packages whose name
    without every [mingw32-] and [mingw64-] is the token, and no others.  So
    when the token holds neither of the two strings it matches the package of
    that name and the packages of that name with [mingw32-] or [mingw64-] in
    front. *)
Theorem plain_token_matches (_packages : list Package) (x : string) :
  plain x →
  (∀ n, n ∈ matchedpackages _packages x ↔
        ∃ p, p ∈ _packages ∧ name p = n ∧ normalized p = x) ∧
  (contains "mingw32-" x = false → contains "mingw64-" x = false →
   ∀ p, p ∈ _packages →
        name p = x ∨ name p = "mingw32-" +:+ x ∨ name p = "mingw64-" +:+ x →
        name p ∈ matchedpackages _packages x).
Proof.
  intros Hplain.
  assert (∀ n, n ∈ matchedpackages _packages x ↔
               ∃ p, p ∈ _packages ∧ name p = n ∧ normalized p = x) as Hm.
  { intros n. unfold matchedpackages.
    rewrite elem_of_list_to_set, list_elem_of_fmap. split.
    - intros (p & -> & [Hp Hin]%list_elem_of_filter). exists p. split_and!; [done..|].
      apply (fnmatchcase_literal _ _ Hplain). by apply Is_true_true.
    - intros (p & Hin & <- & Hn). exists p. split; [done|].
      apply list_elem_of_filter. split; [|done].
      apply Is_true_true. by apply (fnmatchcase_literal _ _ Hplain). }
  split; [done|]. intros H32 H64 p Hp Hname.
  destruct (normalized_shapes x H32 H64) as (E0 & E32 & E64).
  apply Hm. exists p. split_and!; [done..|]. unfold normalized.
  destruct Hname as [->|[->| ->]]; done.
Qed.

(** ** [OpenRepository] *)

Lemma basename_no_slash (p : string) : has_slash (basename p) = false.
Proof.
  induction p as [|c p IH]; simpl; [done|].
  destruct (has_slash p) eqn:E; [done|].
  destruct (Ascii.eqb c "/") eqn:Ec; [done|]. simpl. by rewrite Ec.
Qed.

Lemma basename_split (p : string) :
  ∃ dir, p = dir +:+ basename p ∧ (dir = "" ∨ ∃ d, dir = d +:+ "/").
Proof.
  induction p as [|c p (dir & IH & Hdir)]; [by exists ""; auto|].
  change (basename (String c p))
    with (if has_slash p then basename p
          else if Ascii.eqb c "/" then p else String c p).
  destruct (has_slash p) eqn:E.
  - exists (String c dir). split; [by rewrite IH at 1|]. right.
    destruct Hdir as [->|[d ->]].
    + (* [p] holds a slash and is its own base name: impossible *)
      pose proof (basename_no_slash p) as Hn.
      change ("" +:+ basename p) with (basename p) in IH. rewrite <- IH in Hn.
      congruence.
    + by exists (String c d).
  - destruct (Ascii.eqb c "/") eqn:Ec.
    + apply Ascii.eqb_eq in Ec as ->. exists "/". split; [done|]. right. by exists "".
    + exists "". split; [done|]. by left.
Qed.

Lemma basename_id (p : string) : has_slash p = false → basename p = p.
Proof.
  destruct p as [|c p]; simpl; [done|]. intros [Hc Hp]%orb_false_iff.
  by rewrite Hp, Hc.
Qed.

(** X14.  When [OpenRepository] succeeds, [_packages] holds one package for
    every element of the requested architecture, in document order, and
    nothing else, with the name, build time, provides and requires of the
    element.  The file name of a package is the last component of its
    [href]: it holds no ['/'] and [href] is the file name behind a directory
    part that is empty or ends in ['/']; the url is the repository location,
    that directory part and the file name.  [OpenRepository] fails on a
    build time that is not an integer only if the element has the requested
    architecture. *)
Theorem parsed_packages_spec (int : string → option Z)
    (repositoryLocation arch : string) (elements : list element) :
  (∀ ps, parsed_packages int repositoryLocation arch elements = Some ps →
     Forall2 (λ e p,
        e ∈ elements ∧ e_arch e = arch ∧ name p = e_name e ∧
        int (e_build e) = Some (buildtime p) ∧
        provides p = list_to_set (e_provides e) ∧
        requires p = list_to_set (e_requires e) ∧
        has_slash (filename p) = false ∧
        ∃ dir, e_href e = dir +:+ filename p ∧
               (dir = "" ∨ ∃ d, dir = d +:+ "/") ∧
               url p = repositoryLocation +:+ dir +:+ filename p)
       (filter (λ e, e_arch e = arch) elements) ps) ∧
  (parsed_packages int repositoryLocation arch elements = None ↔
   ∃ e, e ∈ elements ∧ e_arch e = arch ∧ int (e_build e) = None).
Proof.
  unfold parsed_packages. split.
  - intros ps Hps%mapM_Some.
    assert (Forall (λ e, e ∈ elements ∧ e_arch e = arch)
              (filter (λ e, e_arch e = arch) elements)) as Hall.
    { apply Forall_forall. intros e [? ?]%list_elem_of_filter. done. }
    induction Hps as [|e p es ps He Hps IH]; [constructor|].
    apply Forall_cons in Hall as [[Hin Harch] Hall].
    constructor; [|by apply IH].
    unfold package_of in He. destruct (int (e_build e)) as [t|] eqn:Et; simplify_eq/=.
    split_and!; [done..|apply basename_no_slash|].
    destruct (basename_split (e_href e)) as (dir & Hdir & Hshape).
    exists dir. split_and!; [done..|]. by rewrite Hdir at 1.
  - rewrite mapM_None, Exists_exists. split.
    + intros (e & [Harch Hin]%list_elem_of_filter & He). exists e. split_and!; [done..|].
      unfold package_of in He. by destruct (int (e_build e)).
    + intros (e & Hin & Harch & He). exists e. split; [by apply list_elem_of_filter|].
      unfold package_of. by rewrite He.
Qed.


(** ** [main] *)

(** X16.  The package that [main] names the zip and metadata files after
    is a package of the index whose name or file name is the first argument,
    or the first argument with [mingw32-] or [mingw64-] in front; the
    argument as it is comes first.  [main] ends with [Package not found]
    exactly when the index has no such package: the argument is not matched
    as a pattern here. *)
Theorem named_package_spec (_packages : list Package) (arg : string) :
  (∀ p, named_package _packages arg = Some p →
        p ∈ _packages ∧
        (name_or_filename arg p ∨ name_or_filename ("mingw32-" +:+ arg) p ∨
         name_or_filename ("mingw64-" +:+ arg) p)) ∧
  (∀ p, (_findPackage _packages arg).1 = Some p → named_package _packages arg = Some p) ∧
  (named_package _packages arg = None ↔
   ∀ p, p ∈ _packages →
        ¬ name_or_filename arg p ∧ ¬ name_or_filename ("mingw32-" +:+ arg) p ∧
        ¬ name_or_filename ("mingw64-" +:+ arg) p).
Proof.
  assert (∀ n, (_findPackage _packages n).1 = None ↔
               ∀ p, p ∈ _packages → ¬ name_or_filename n p) as Hnone.
  { intros n. rewrite _findPackage_None. split.
    - intros E p Hp Hm.
      assert (p ∈ findByNameOrFilename _packages n) as Hin
        by by apply findByNameOrFilename_elem.
      rewrite E in Hin. by apply elem_of_nil in Hin.
    - intros Hno. apply elem_of_nil_inv. intros p [Hp Hm]%findByNameOrFilename_elem.
      by apply (Hno p). }
  unfold named_package. split_and!.
  - intros p.
    destruct (_findPackage _packages arg).1 as [q|] eqn:E1.
    { intros [= ->]. apply _findPackage_Some in E1 as [? ?]. auto. }
    destruct (_findPackage _packages ("mingw32-" +:+ arg)).1 as [q|] eqn:E2.
    { intros [= ->]. apply _findPackage_Some in E2 as [? ?]. auto. }
    intros E3. apply _findPackage_Some in E3 as [? ?]. auto.
  - by intros p ->.
  - destruct (_findPackage _packages arg).1 as [q|] eqn:E1.
    { split; [done|]. intros Hno. apply _findPackage_Some in E1 as [Hq Hm].
      by destruct (Hno q Hq) as (? & _). }
    destruct (_findPackage _packages ("mingw32-" +:+ arg)).1 as [q|] eqn:E2.
    { split; [done|]. intros Hno. apply _findPackage_Some in E2 as [Hq Hm].
      by destruct (Hno q Hq) as (_ & ? & _). }
    rewrite Hnone in E1, E2. rewrite Hnone. naive_solver.
Qed.

(** ** Witnesses *)

Lemma fnmatchcase_plain_witness :
  plain "zlib" ∧ (fnmatchcase "zlib" "zlib" = true ↔ "zlib" = "zlib").
Proof. split; [compute_done|]. apply (fnmatchcase_plain "zlib" "zlib"). compute_done. Defined.

Lemma plain_token_matches_witness :
  plain "zlib" ∧
  (∀ n, n ∈ matchedpackages Sample.zlibs "zlib" ↔
        ∃ p, p ∈ Sample.zlibs ∧ name p = n ∧ normalized p = "zlib") ∧
  (contains "mingw32-" "zlib" = false → contains "mingw64-" "zlib" = false →
   ∀ p, p ∈ Sample.zlibs →
        name p = "zlib" ∨ name p = "mingw32-" +:+ "zlib" ∨ name p = "mingw64-" +:+ "zlib" →
        name p ∈ matchedpackages Sample.zlibs "zlib").
Proof. split; [compute_done|]. apply (plain_token_matches Sample.zlibs "zlib"). compute_done. Defined.

Lemma explicit_repository_url_witness :
  contains "PROJECT" "http://mirror.example.org/mingw/" = false ∧
  contains "REPOSITORY" "http://mirror.example.org/mingw/" = false ∧
  repository_location "http://mirror.example.org/mingw/" "windows:mingw:win64" "openSUSE_13.2"
  = "http://mirror.example.org/mingw/".
Proof.
  split_and!; [reflexivity..|].
  apply (explicit_repository_url "http://mirror.example.org/mingw/"); reflexivity.
Defined.

(** ** File and capability names in [main] *)

Lemma prefix_app_fresh (d : ascii) (p s t : string) :
  contains (String d "") p = false →
  String.prefix p (s +:+ String d t) = String.prefix p s.
Proof.
  revert s. induction p as [|a p IH]; intros s Hp; [by destruct s|].
  rewrite contains_cons in Hp. apply orb_false_elim in Hp as [Ha Hp].
  destruct s as [|c s]; simpl.
  - simpl in Ha. destruct (ascii_dec a d) as [E|]; [|done].
    destruct (ascii_dec d a); [by destruct p|congruence].
  - destruct (ascii_dec a c); [by apply IH|done].
Qed.

Lemma prefix_cons (a : ascii) (p : string) (c : ascii) (s : string) :
  String.prefix (String a p) (String c s)
  = if ascii_dec a c then String.prefix p s else false.
Proof. reflexivity. Qed.

Lemma prefix_split (p s : string) :
  String.prefix p s = true → s = p +:+ string_drop (String.length p) s.
Proof.
  revert s. induction p as [|a p IH]; intros s; [done|].
  destruct s as [|c s]; simpl; [done|].
  destruct (ascii_dec a c) as [->|]; [|done]. intros H.
  change (String c s = String c (p +:+ string_drop (String.length p) s)).
  f_equal. by apply IH.
Qed.

Lemma mingw_dash_app (s t : string) :
  mingw_dash (s +:+ String "." t) = mingw_dash s.
Proof. unfold mingw_dash. by rewrite !prefix_app_fresh. Qed.

Lemma mingw_dash_split (s : string) :
  mingw_dash s = true →
  (s = "mingw32-" +:+ string_drop 8 s ∨ s = "mingw64-" +:+ string_drop 8 s).
Proof.
  unfold mingw_dash. intros [H|H]%orb_true_iff.
  - left. by apply (prefix_split "mingw32-").
  - right. by apply (prefix_split "mingw64-").
Qed.

Lemma contains_string_drop (old : string) (k : nat) (s : string) :
  contains old s = false → contains old (string_drop k s) = false.
Proof.
  revert s. induction k as [|k IH]; intros s; [by destruct s|].
  destruct s as [|c s]; [done|].
  rewrite contains_cons. intros [_ H]%orb_false_elim. by apply IH.
Qed.

Lemma match_suffix_inside (c : ascii) (s t : string) :
  String.prefix ".noarch" (String c s) = false →
  match_suffix (String c s +:+ String "." t) = None.
Proof.
  intros H. unfold match_suffix.
  change (String c s +:+ String "." t) with (String c (s +:+ String "." t)).
  assert (String.prefix ".noarch" (String c (s +:+ String "." t)) = false)
    as ->.
  { rewrite (prefix_cons "." "noarch") in *.
    destruct (ascii_dec "." c); [|done].
    by rewrite (prefix_app_fresh "." "noarch"). }
  assert (String.prefix ".rpm" (String c (s +:+ String "." t))
          = String.prefix ".rpm" (String c s)) as ->.
  { rewrite !(prefix_cons "." "rpm").
    destruct (ascii_dec "." c); [|done].
    by rewrite (prefix_app_fresh "." "rpm"). }
  destruct (String.prefix ".rpm" (String c s)) eqn:E; [|done].
  apply prefix_split in E. change (String.length ".rpm") with 4%nat in E.
  remember (string_drop 4 (String c s)) as r eqn:Hr. clear Hr.
  change (String c (s +:+ String "." t)) with (String c s +:+ String "." t).
  rewrite E.
  change (string_drop 4 ((".rpm" +:+ r) +:+ String "." t))
    with (r +:+ String "." t).
  destruct r as [|c1 [|c2 r]]; [destruct t|..]; reflexivity.
Qed.

Lemma sub_suffixes_inside (s t : string) :
  contains ".noarch" s = false →
  sub_suffixes 0 (s +:+ String "." t) = s +:+ sub_suffixes 0 (String "." t).
Proof.
  induction s as [|c s IH]; [done|].
  rewrite contains_cons. intros [Hc Hs]%orb_false_elim.
  change (sub_suffixes 0 (String c s +:+ String "." t))
    with (match match_suffix (String c s +:+ String "." t) with
          | Some n => sub_suffixes (n - 1) (s +:+ String "." t)
          | None => String c (sub_suffixes 0 (s +:+ String "." t))
          end).
  rewrite match_suffix_inside by done. by rewrite IH.
Qed.

Lemma sub_suffixes_skip (p s : string) :
  sub_suffixes (String.length p) (p +:+ s) = sub_suffixes 0 s.
Proof. induction p as [|c p IH]; simpl; [by destruct s|done]. Qed.

Lemma packageBasename_inside (s t : string) :
  contains ".noarch" s = false →
  packageBasename (s +:+ String "." t)
  = (if mingw_dash s then string_drop 8 s else s)
      +:+ sub_suffixes 0 (String "." t).
Proof.
  intros Hs. unfold packageBasename. rewrite mingw_dash_app.
  destruct (mingw_dash s) eqn:E; [|by apply sub_suffixes_inside].
  assert (contains ".noarch" (string_drop 8 s) = false) as Hd
    by by apply contains_string_drop.
  revert Hd. apply mingw_dash_split in E.
  generalize dependent (string_drop 8 s). intros r Hr Hd.
  destruct Hr as [-> | ->].
  - rewrite <-(sub_suffixes_inside r t Hd).
    apply (sub_suffixes_skip "mingw32-" (r +:+ String "." t)).
  - rewrite <-(sub_suffixes_inside r t Hd).
    apply (sub_suffixes_skip "mingw64-" (r +:+ String "." t)).
Qed.

(** X17.  The name [main] gives the zip and metadata files: for a file name
    that is [s], without [.noarch] inside, followed by [.noarch.rpm], it is
    [s] without one leading [mingw32-] or [mingw64-]; for the file name of a
    source package, [s] followed by [.src.rpm], it keeps the [.src]. *)
Theorem packageBasename_of_filename (s : string) :
  contains ".noarch" s = false →
  packageBasename (s +:+ ".noarch.rpm")
  = (if mingw_dash s then string_drop 8 s else s) ∧
  packageBasename (s +:+ ".src.rpm")
  = (if mingw_dash s then string_drop 8 s else s) +:+ ".src".
Proof.
  intros Hs. split.
  - rewrite (packageBasename_inside s "noarch.rpm" Hs).
    change (sub_suffixes 0 ".noarch.rpm") with "".
    generalize (if mingw_dash s then string_drop 8 s else s).
    intros r. induction r as [|c r IH]; [done|].
    change (String c (r +:+ "") = String c r). by rewrite IH.
  - by rewrite (packageBasename_inside s "src.rpm" Hs).
Qed.

Lemma packageBasename_of_filename_witness :
  contains ".noarch" "mingw32-zlib-1.2.8-1.1" = false ∧
  packageBasename "mingw32-zlib-1.2.8-1.1.noarch.rpm" = "zlib-1.2.8-1.1" ∧
  packageBasename "mingw32-zlib-1.2.8-1.1.src.rpm" = "zlib-1.2.8-1.1.src".
Proof.
  split; [reflexivity|].
  apply (packageBasename_of_filename "mingw32-zlib-1.2.8-1.1"). reflexivity.
Defined.

Lemma group_paren_none (t : string) :
  contains ")" t = false → group_paren t = None.
Proof.
  induction t as [|c t IH]; [done|].
  rewrite contains_cons. intros [Hc Ht]%orb_false_elim.
  simpl. rewrite (IH Ht). destruct (Ascii.eqb c newline); [done|].
  destruct (Ascii.eqb_spec c ")") as [->|]; [|done]. by destruct t.
Qed.

Lemma group_paren_last (s t : string) :
  contains (String newline "") s = false → contains ")" t = false →
  group_paren (s +:+ String ")" t) = Some (s, t).
Proof.
  intros Hs Ht. induction s as [|c s IH].
  - simpl. by rewrite (group_paren_none t Ht).
  - rewrite contains_cons in Hs. apply orb_false_elim in Hs as [Hc Hs].
    simpl. rewrite (IH Hs).
    destruct (Ascii.eqb_spec c newline) as [->|]; [|done]. by destruct s.
Qed.

(** X18.  What [cleanup] makes of a capability in parentheses: from
    [mingw32(] or [mingw64(], a text [s] of one line, the closing
    parenthesis and a text [t] without one, the parentheses and what is
    before them go, and then one leading [mingw32-] or [mingw64-] of what is
    left.  Without a closing parenthesis the capability is left as it is. *)
Theorem cleanup_parenthesised (s t : string) :
  contains (String newline "") s = false → contains ")" t = false →
  cleanup ("mingw32(" +:+ s +:+ String ")" t) = cleanup_outer (s +:+ t) ∧
  cleanup ("mingw64(" +:+ s +:+ String ")" t) = cleanup_outer (s +:+ t) ∧
  cleanup ("mingw32(" +:+ t) = "mingw32(" +:+ t ∧
  cleanup ("mingw64(" +:+ t) = "mingw64(" +:+ t.
Proof.
  intros Hs Ht.
  assert (∀ x, mingw_paren ("mingw32(" +:+ x) = true) as H32
    by (intros x; unfold mingw_paren; by rewrite prefix_app_same).
  assert (∀ x, mingw_paren ("mingw64(" +:+ x) = true) as H64.
  { intros x. unfold mingw_paren.
    by rewrite (prefix_app_same "mingw64("), orb_true_r. }
  unfold cleanup, cleanup_inner. rewrite !H32, !H64.
  change (string_drop 8 ("mingw32(" +:+ s +:+ String ")" t))
    with (s +:+ String ")" t).
  change (string_drop 8 ("mingw64(" +:+ s +:+ String ")" t))
    with (s +:+ String ")" t).
  change (string_drop 8 ("mingw32(" +:+ t)) with t.
  change (string_drop 8 ("mingw64(" +:+ t)) with t.
  by rewrite group_paren_last, group_paren_none.
Qed.

Lemma cleanup_parenthesised_witness :
  cleanup "mingw32(libz-1.dll)" = "libz-1.dll" ∧
  cleanup "mingw64(mingw64-x)(y) = 1" = "x)(y = 1".
Proof.
  split.
  - apply (cleanup_parenthesised "libz-1.dll" ""); reflexivity.
  - apply (cleanup_parenthesised "mingw64-x)(y" " = 1"); reflexivity.
Defined.

(** X19.  [cleanup] takes one leading [mingw32-] or [mingw64-] off a
    capability, whatever follows it, and nothing more: a second prefix, and
    a parenthesised capability behind the prefix, stay. *)
Theorem cleanup_leading_prefix (n : string) :
  cleanup ("mingw32-" +:+ n) = n ∧ cleanup ("mingw64-" +:+ n) = n.
Proof.
  assert (∀ x, mingw_dash ("mingw32-" +:+ x) = true) as H32
    by (intros x; unfold mingw_dash; by rewrite prefix_app_same).
  assert (∀ x, mingw_dash ("mingw64-" +:+ x) = true) as H64.
  { intros x. unfold mingw_dash.
    by rewrite (prefix_app_same "mingw64-"), orb_true_r. }
  unfold cleanup.
  change (cleanup_inner ("mingw32-" +:+ n)) with ("mingw32-" +:+ n).
  change (cleanup_inner ("mingw64-" +:+ n)) with ("mingw64-" +:+ n).
  unfold cleanup_outer. by rewrite H32, H64.
Qed.
